(** * Magic/utils.py: cell instantiation, cell binding and hierarchical placement

    A shallow embedding of [src/Magic/utils.py] (and of the way
    [src/main_RL_placement.py] calls it) together with the properties of the
    orchestration layer: the self-healing retry of [add_cells], the cleaning
    done by [place_circuit] and [instantiate_circuit], the cell cache lookup
    [generate_cell], the path rebinding of [instantiate_devices] and the
    snapshot discipline of [place_circuit_hierachical].

    Python objects live in a store and are passed by reference, the file
    system and the layout-tool session are explicit state, exceptions and
    [sys.exit] are results of a small state-and-error monad.  Every function
    of utils.py records its entry in a trace, next to what it prints and
    what it submits to the tool; calls to [logger] are left out, they change
    nothing of this.

    The first part holds the definitions: data, monad, file system, tool,
    the functions of utils.py, the collaborators modelled from the
    specification, a concrete hierarchy, and the vocabulary of the
    properties.  The second part holds the lemmas and theorems. *)

From Stdlib Require Import ZArith String List Lia Ascii Permutation Sorted.
From stdpp Require Import base gmap strings list fin_maps.

Open Scope Z_scope.
Open Scope string_scope.
Open Scope list_scope.

(** ** Strings and paths *)

Module Path.

Definition starts_with (p s : string) : bool := String.prefix p s.

Definition ends_with (suf s : string) : bool :=
  let n := String.length s in
  let k := String.length suf in
  (k <=? n)%nat && String.eqb (substring (n - k) k s) suf.

(** [os.path.join(a, b)] of posixpath, two arguments. *)
Definition join (a b : string) : string :=
  if starts_with "/" b then b
  else if String.eqb a "" || ends_with "/" a then a +:+ b
  else a +:+ "/" +:+ b.

(** The Tcl pattern [*.mag] of [glob]: the name ends in [.mag]; a name that
    starts with a dot is matched only by a pattern that starts with one. *)
Definition glob_mag (fname : string) : bool :=
  ends_with ".mag" fname && negb (starts_with "." fname).

End Path.

(** ** The object store

    [Circuit], [Device] and [Cell] instances are Python objects: the code
    holds references to them and mutates them in place.  A reference is a
    location of the store. *)

Definition loc := nat.

(** [type(d)]: [SubDevice] exactly, or any other device class. *)
Inductive DeviceClass := Primitive | SubDevice.

(** [type(device.cell)]: [Cell] exactly, or the class of a macro cell (the
    object on which [place_circuit_hierachical] calls
    [_move_cells_to_bound]). *)
Inductive CellClass := ClsCell | ClsMacroCell.

Record Device := mkDevice {
  dev_name : string;
  dev_class : DeviceClass;
  dev_circuit : option loc;     (* the circuit a SubDevice stands for *)
  dev_cell : option loc         (* [None] is Python's [None] *)
}.

(** A circuit; [circ_sub_device = Some d] is a [SubCircuit] instance, whose
    [sub_device] attribute is [d]. [circ_devices] is the dict
    [devices], in insertion order. *)
Record Circuit := mkCircuit {
  circ_name : string;
  circ_devices : list (string * loc);
  circ_sub_device : option loc
}.

Record Cell := mkCell {
  cell_class : CellClass;
  cell_name : string;
  cell_layers : list string;
  cell_path : option string;
  cell_center : Z * Z;
  cell_rotation : Z;
  cell_size : Z * Z;
  cell_children : list loc
}.

#[global] Instance DeviceClass_eq_dec : EqDecision DeviceClass.
Proof. solve_decision. Defined.
#[global] Instance CellClass_eq_dec : EqDecision CellClass.
Proof. solve_decision. Defined.
#[global] Instance Device_eq_dec : EqDecision Device.
Proof. solve_decision. Defined.
#[global] Instance Circuit_eq_dec : EqDecision Circuit.
Proof. solve_decision. Defined.
#[global] Instance Cell_eq_dec : EqDecision Cell.
Proof. solve_decision. Defined.

(** ** File system, tool session, trace *)

(** Directories by absolute path; a directory maps the names of its entries
    to their contents. *)
Abbreviation FS := (gmap string (gmap string string)).

(** What [Magic.magic_command] is given: one command string, or the list of
    lines that [gen_devices] or [place_circuit] produced. *)
Inductive Cmd := Line (s : string) | Batch (ls : list string).

(** Observable events, in the order in which they happen: entries into the
    functions of utils.py, the destructive [shutil.rmtree], the geometric
    methods called on a cell, what is submitted to the tool session and what
    is printed. *)
Inductive Event :=
| Call_instantiate_circuit (c : loc) (path : string)
| Call_instantiate_devices (c : loc) (path : string) (del_path : bool)
| Call_generate_cell (name path : string)
| Call_add_cells (c : loc) (path : string)
| Call_place_circuit (name : string) (c : loc) (path : string) (debug clean_path : bool)
| Call_place_circuit_hierachical (name : string) (c : loc) (path : string) (clean_path : bool)
| Call_rmtree (path : string)
| Call_move_center (cell : loc) (p : Z * Z)
| Call_rotate_center (cell : loc) (angle : Z)
| Call_move_cells_to_bound (cell : loc)
| Send (c : Cmd)
| Printed (s : string).

#[global] Instance Cmd_eq_dec : EqDecision Cmd.
Proof. solve_decision. Defined.
#[global] Instance Event_eq_dec : EqDecision Event.
Proof. solve_decision. Defined.

Record World := mkWorld {
  circuits : gmap loc Circuit;
  devs : gmap loc Device;
  cells : gmap loc Cell;
  fs : FS;
  cwd : string;          (* [os.getcwd()] *)
  tool_cwd : string;     (* the directory the tool session is in *)
  trace : list Event
}.

Definition with_cells (f : gmap loc Cell -> gmap loc Cell) (w : World) : World :=
  mkWorld (circuits w) (devs w) (f (cells w)) (fs w) (cwd w) (tool_cwd w) (trace w).
Definition with_devs (f : gmap loc Device -> gmap loc Device) (w : World) : World :=
  mkWorld (circuits w) (f (devs w)) (cells w) (fs w) (cwd w) (tool_cwd w) (trace w).
Definition with_fs (f : FS -> FS) (w : World) : World :=
  mkWorld (circuits w) (devs w) (cells w) (f (fs w)) (cwd w) (tool_cwd w) (trace w).
Definition with_tool_cwd (d : string) (w : World) : World :=
  mkWorld (circuits w) (devs w) (cells w) (fs w) (cwd w) d (trace w).
Definition with_trace (f : list Event -> list Event) (w : World) : World :=
  mkWorld (circuits w) (devs w) (cells w) (fs w) (cwd w) (tool_cwd w) (f (trace w)).

(** The objects alone, as a collaborator that only reads them sees them. *)
Record Store := mkStore {
  st_circuits : gmap loc Circuit;
  st_devs : gmap loc Device;
  st_cells : gmap loc Cell
}.

Definition store_of (w : World) : Store := mkStore (circuits w) (devs w) (cells w).

(** ** Exceptions and the monad of the embedding *)

Inductive exn :=
| FileNotFoundError (msg : string)
| AttributeError                    (* a method called on [None] *)
| ExternalError (kind : string).    (* raised by a collaborator *)

Definition is_FileNotFoundError (e : exn) : bool :=
  match e with FileNotFoundError _ => true | _ => false end.

(** How a call ends: it returns, an exception propagates out of it,
    [sys.exit] was called, or the recursion budget of the model ran out. *)
Inductive Res (A : Type) :=
| Ok (a : A)
| Raise (e : exn)
| Exit (status : Z)
| OutOfFuel.
Arguments Ok {A} a.
Arguments Raise {A} e.
Arguments Exit {A} status.
Arguments OutOfFuel {A}.

Definition M (A : Type) : Type := World -> Res A * World.

Definition ret {A} (a : A) : M A := fun w => (Ok a, w).

Definition bind {A B} (m : M A) (k : A -> M B) : M B :=
  fun w =>
    match m w with
    | (Ok a, w') => k a w'
    | (Raise e, w') => (Raise e, w')
    | (Exit z, w') => (Exit z, w')
    | (OutOfFuel, w') => (OutOfFuel, w')
    end.

Declare Scope py_scope.
Delimit Scope py_scope with py.
Notation "'let*' x ':=' c1 'in' c2" := (bind c1 (fun x => c2))
  (at level 10, x pattern, c1 at level 100, c2 at level 200) : py_scope.
Notation "c1 >> c2" := (bind c1 (fun _ => c2))
  (at level 90, right associativity) : py_scope.
Open Scope py_scope.

Definition raise {A} (e : exn) : M A := fun w => (Raise e, w).
Definition sys_exit {A} (z : Z) : M A := fun w => (Exit z, w).
Definition out_of_fuel {A} : M A := fun w => (OutOfFuel, w).
Definition get : M World := fun w => (Ok w, w).
Definition modify (f : World -> World) : M unit := fun w => (Ok tt, f w).
Definition emit (e : Event) : M unit := modify (with_trace (fun t => t ++ [e])).
Definition print (s : string) : M unit := emit (Printed s).

(** The result of a collaborator that may raise. *)
Definition lift {A} (r : exn + A) : M A :=
  match r with inl e => raise e | inr a => ret a end.

(** [for x in l: body(x)] *)
Fixpoint for_each {A} (l : list A) (body : A -> M unit) : M unit :=
  match l with
  | [] => ret tt
  | x :: l' => body x >> for_each l' body
  end.

(** Attribute access through a reference.  Python has no dangling
    references; a location outside the store ends the call with an error so
    that the functions below are total. *)
Definition deref {A} (sel : World -> gmap loc A) (l : loc) : M A :=
  fun w => match sel w !! l with
           | Some a => (Ok a, w)
           | None => (Raise (ExternalError "invalid reference"), w)
           end.

(** ** The file system as Python and the tool see it *)

(** A relative path is resolved against the working directory; this is also
    the [abspath] that utils.py computes with [os.path.join(cwdpath, path)]
    and hands to the tool. *)
Definition absdir (w : World) (path : string) : string := Path.join (cwd w) path.

(** [os.path.exists(path)] for a directory. *)
Definition path_exists (path : string) (w : World) : bool :=
  bool_decide (is_Some (fs w !! absdir w path)).

(** The entry [<name>.mag] of the directory [path], if there is one: the file
    [f'{path}/{name}.mag']. *)
Definition mag_file (path name : string) (w : World) : option string :=
  match fs w !! absdir w path with
  | Some entries => entries !! (name +:+ ".mag")
  | None => None
  end.

(** [os.makedirs(path)] *)
Definition makedirs (path : string) : M unit :=
  modify (fun w => with_fs (fun f => <[absdir w path := ∅]> f) w).

Definition under (d k : string) : bool :=
  String.eqb k d || Path.starts_with (d +:+ "/") k.

(** [shutil.rmtree(path)]: the directory and all below it. *)
Definition rmtree (path : string) : M unit :=
  emit (Call_rmtree path) >>
  modify (fun w => with_fs (filter (fun kv => under (absdir w path) kv.1 = false)) w).

(** The entries of directory [d] that the pattern [*.mag] matches. *)
Definition mag_files (d : string) (f : FS) : gmap string string :=
  match f !! d with
  | Some entries => filter (fun kv => Path.glob_mag kv.1 = true) entries
  | None => ∅
  end.

(** [foreach fname [glob *.mag] {file delete $fname}] run in directory [d]. *)
Definition delete_mag_files (d : string) (f : FS) : FS :=
  match f !! d with
  | Some entries => <[d := filter (fun kv => Path.glob_mag kv.1 = false) entries]> f
  | None => f
  end.

Definition foreach_delete : string := "foreach fname [glob *.mag] {file delete $fname}".

(** ** The tool session

    A [Magic] instance, as far as utils.py uses it: the two generators of
    command lines and the execution of a batch of generated lines, which is
    opaque (it is the layout tool that runs them, in the directory the
    session is in, against the file system).  [mag : option Magic] is the
    argument [mag] of the Python functions, [None] being Python's [None]:
    [if mag:] tests it and a method call on [None] raises. *)
Record Magic := mkMagic {
  gen_devices : Store -> exn + list string;
  place_circuit_lines : string -> string -> Store -> exn + list string;
  execute : list string -> string -> FS -> exn + FS
}.

Definition run_lines (m : Magic) (ls : list string) : M unit :=
  fun w => match execute m ls (tool_cwd w) (fs w) with
           | inl e => (Raise e, w)
           | inr f => (Ok tt, with_fs (fun _ => f) w)
           end.

(** [mag.magic_command(cmd)].  The two literal commands that utils.py sends
    have the meaning its comments give them ("move to it in the layout
    editor", "remove any existing layout files in that directory"). *)
Definition magic_command (m : Magic) (c : Cmd) : M unit :=
  emit (Send c) >>
  match c with
  | Line s =>
      if Path.starts_with "cd " s
      then modify (with_tool_cwd (substring 3 (String.length s - 3) s))
      else if String.eqb s foreach_delete
      then modify (fun w => with_fs (delete_mag_files (tool_cwd w)) w)
      else run_lines m [s]
  | Batch ls => run_lines m ls
  end.

(** ** Sorting the topology

    [topology.sort(key=lambda x: x[0])] and the same with [reverse=True].
    Python's sort is stable in both directions, and a stable sort is
    determined by its key, so insertion from the right models it. *)
Module Topology.

Definition entry : Type := Z * loc.

Fixpoint insert_asc (x : entry) (l : list entry) : list entry :=
  match l with
  | [] => [x]
  | y :: l' => if (y.1 <? x.1)%Z then y :: insert_asc x l' else x :: l
  end.

Definition sort_asc (l : list entry) : list entry := foldr insert_asc [] l.

Fixpoint insert_desc (x : entry) (l : list entry) : list entry :=
  match l with
  | [] => [x]
  | y :: l' => if (x.1 <? y.1)%Z then y :: insert_desc x l' else x :: l
  end.

Definition sort_desc (l : list entry) : list entry := foldr insert_desc [] l.

End Topology.

(** ** Collaborators outside utils.py

    What the functions of utils.py call and do not define.  [parse_layers]
    is [MagicParser(file).layers] as a function of the file's contents,
    [None] when the parser raises; it reads the file whose existence was
    just checked.  [deepcopy] is [copy.deepcopy].  The two topology functions
    are those of [SchematicCapture.utils]; they read the circuits and
    their devices. *)
Record Externals := mkExternals {
  realpath : string -> string;
  parse_layers : string -> option (list string);
  cell_extent : list string -> Z * Z;
  circuit_str : gmap loc Circuit -> loc -> string;
  get_top_down_topology :
    gmap loc Circuit -> gmap loc Device -> loc -> exn + list Topology.entry;
  get_bottom_up_topology :
    gmap loc Circuit -> gmap loc Device -> loc -> exn + list Topology.entry;
  deepcopy : World -> loc -> World * loc
}.

(** ** The methods of [Cell] that utils.py calls *)

Definition set_path (p : string) (c : Cell) : Cell :=
  mkCell (cell_class c) (cell_name c) (cell_layers c) (Some p)
         (cell_center c) (cell_rotation c) (cell_size c) (cell_children c).
Definition set_center (p : Z * Z) (c : Cell) : Cell :=
  mkCell (cell_class c) (cell_name c) (cell_layers c) (cell_path c)
         p (cell_rotation c) (cell_size c) (cell_children c).
Definition set_rotation (r : Z) (s : Z * Z) (c : Cell) : Cell :=
  mkCell (cell_class c) (cell_name c) (cell_layers c) (cell_path c)
         (cell_center c) r s (cell_children c).

(** Modelled from the spec: [Cell.add_path], absent from src/.  Section 4.2:
    rebinding "updates a Cell's provenance path ... without altering its
    geometry". *)
Definition add_path (cl : loc) (p : string) : M unit :=
  let* c := deref cells cl in
  modify (with_cells (fun m => <[cl := set_path p c]> m)).

(** Modelled from the spec: [Cell.move_center], absent from src/.  Section
    4.6 (a): "translate so its center is at the origin"; the call is
    [move_center((0,0))], so the argument is the new center. *)
Definition move_center (cl : loc) (p : Z * Z) : M unit :=
  emit (Call_move_center cl p) >>
  let* c := deref cells cl in
  modify (with_cells (fun m => <[cl := set_center p c]> m)).

(** Modelled from the spec: [Cell.rotate_center], absent from src/.  Section
    4.6 (b): "rotate by the negative of its current rotation"; the angle is
    added to the rotation, the center stays, and a quarter turn exchanges the
    bounding extents. *)
Definition rotate_center (cl : loc) (angle : Z) : M unit :=
  emit (Call_rotate_center cl angle) >>
  let* c := deref cells cl in
  let size' := if (angle mod 180 =? 90)%Z
               then ((cell_size c).2, (cell_size c).1) else cell_size c in
  modify (with_cells (fun m => <[cl := set_rotation (cell_rotation c + angle) size' c]> m)).

(** The lower left corner of a cell's bounding box. *)
Definition lower_left (c : Cell) : Z * Z :=
  ((cell_center c).1 - (cell_size c).1 / 2, (cell_center c).2 - (cell_size c).2 / 2).

(** The lower left corner of the bounding box of several cells. *)
Definition joint_lower_left (cs : list Cell) : option (Z * Z) :=
  match cs with
  | [] => None
  | c :: cs' =>
      Some (foldr (fun c' acc => (Z.min (lower_left c').1 acc.1, Z.min (lower_left c').2 acc.2))
                  (lower_left c) cs')
  end.

Definition shift_cell (d : Z * Z) (cl : loc) : M unit :=
  let* c := deref cells cl in
  modify (with_cells (fun m =>
    <[cl := set_center ((cell_center c).1 + d.1, (cell_center c).2 + d.2) c]> m)).

Fixpoint deref_all (ls : list loc) : M (list Cell) :=
  match ls with
  | [] => ret []
  | l :: ls' =>
      let* c := deref cells l in
      let* cs := deref_all ls' in
      ret (c :: cs)
  end.

(** Modelled from the spec: [_move_cells_to_bound], absent from src/.
    Section 4.6 (c): "shift all of its internal child-cell positions so the
    whole block's bounding box is aligned at the origin": every child is
    moved by the vector that takes the lower left corner of the children's
    joint bounding box to the origin. *)
Definition move_cells_to_bound (cl : loc) : M unit :=
  emit (Call_move_cells_to_bound cl) >>
  let* c := deref cells cl in
  let* kids := deref_all (cell_children c) in
  match joint_lower_left kids with
  | None => ret tt
  | Some b => for_each (cell_children c) (shift_cell (- b.1, - b.2))
  end.

(** [Cell(name, layers)]: a fresh object of class [Cell], no path yet, at
    the origin and unrotated. *)
Definition new_Cell (extent : list string -> Z * Z) (name : string) (layers : list string)
  : M loc :=
  fun w =>
    let l := fresh (dom (cells w)) in
    (Ok l,
     with_cells
       (fun m => <[l := mkCell ClsCell name layers None (0, 0) 0 (extent layers) []]> m) w).

(** [d.set_cell(cell)] *)
Definition set_cell (d : loc) (cl : loc) : M unit :=
  let* dv := deref devs d in
  modify (with_devs (fun m =>
    <[d := mkDevice (dev_name dv) (dev_class dv) (dev_circuit dv) (Some cl)]> m)).

(** [try: body / except FileNotFoundError: h1 / except: h2].  The bare
    clause also catches [SystemExit]; an exception raised inside a handler
    is not caught by the other clause. *)
Definition try_except {A} (body on_file_not_found on_other : M A) : M A :=
  fun w =>
    match body w with
    | (Ok a, w') => (Ok a, w')
    | (Raise e, w') =>
        if is_FileNotFoundError e then on_file_not_found w' else on_other w'
    | (Exit _, w') => on_other w'
    | (OutOfFuel, w') => (OutOfFuel, w')
    end.

(** ** utils.py *)

Section Utils.

Context (X : Externals).

(** [mag.<method>(...)] where [mag] may be [None]. *)
Definition method {A} (mag : option Magic) (f : Magic -> Store -> exn + A) : M A :=
  match mag with
  | None => raise AttributeError
  | Some m => let* w := get in lift (f m (store_of w))
  end.

Definition mag_command (mag : option Magic) (c : Cmd) : M unit :=
  match mag with
  | None => raise AttributeError
  | Some m => magic_command m c
  end.

(** The block shared by [instantiate_circuit] and [place_circuit]:
    [cwdpath = os.getcwd(); abspath = os.path.join(cwdpath, path);
     if mag: cd abspath; delete the .mag files]. *)
Definition clear_through_tool (mag : option Magic) (path : string) : M unit :=
  let* w := get in
  let abspath := Path.join (cwd w) path in
  match mag with
  | Some m =>
      magic_command m (Line ("cd " +:+ abspath)) >>
      magic_command m (Line foreach_delete)
  | None => ret tt
  end.

(** [if not os.path.exists(path): os.makedirs(path)] *)
Definition ensure_dir (path : string) : M unit :=
  let* w := get in
  if negb (path_exists path w) then makedirs path else ret tt.

(** [instantiate_devices(Circuit, mag, path, del_path)], lines 77-133. *)
Definition instantiate_devices (Circuit : loc) (mag : option Magic)
    (path : string) (del_path : bool) : M unit :=
  emit (Call_instantiate_devices Circuit path del_path) >>
  let* lines := method mag gen_devices in
  let* w := get in
  (if path_exists path w && del_path then rmtree path else ret tt) >>
  ensure_dir path >>
  mag_command mag (Batch lines) >>
  let* c := deref circuits Circuit in
  for_each (circ_devices c) (fun nd =>
    let* device := deref devs nd.2 in
    match dev_cell device with
    | None => ret tt
    | Some cl =>
        let* cell := deref cells cl in
        match cell_class cell with
        | ClsCell => add_path cl (realpath X path)
        | _ => ret tt
        end
    end).

(** [instantiate_circuit(Circuit, mag, path)], lines 40-75. *)
Definition instantiate_circuit (Circuit : loc) (mag : option Magic) (path : string) : M unit :=
  emit (Call_instantiate_circuit Circuit path) >>
  let* w := get in
  let* topology := lift (get_top_down_topology X (circuits w) (devs w) Circuit) in
  let topology := Topology.sort_asc topology in
  ensure_dir path >>
  clear_through_tool mag path >>
  for_each topology (fun tc =>
    print "Diagnostic:  instantiating devices." >>
    instantiate_devices tc.2 mag path false).

(** [generate_cell(name, path)], lines 135-168.  [os.path.exists] of
    [f'{path}/{name}.mag'] is the presence of the entry [<name>.mag] in the
    directory [path]. *)
Definition generate_cell (name : string) (path : string) : M loc :=
  emit (Call_generate_cell name path) >>
  let* w := get in
  match mag_file path name w with
  | None =>
      raise (FileNotFoundError
               ("Magic-view of cell " +:+ name +:+ " not found in " +:+ path +:+ "/!"))
  | Some contents =>
      match parse_layers X contents with
      | None => raise (ExternalError "MagicParser")
      | Some layers =>
          let* cell := new_Cell (cell_extent X) name layers in
          add_path cell (realpath X path) >>
          ret cell
      end
  end.

(** The body of the [try] of [add_cells]. *)
Definition bind_pass (circ : loc) (path : string) : M unit :=
  let* w := get in
  let* topology := lift (get_top_down_topology X (circuits w) (devs w) circ) in
  let topology := Topology.sort_asc topology in
  for_each topology (fun tc =>
    let* c := deref circuits tc.2 in
    for_each (circ_devices c) (fun nd =>
      let* d := deref devs nd.2 in
      match dev_class d with
      | SubDevice => ret tt
      | _ =>
          let cell_path := path in
          let* cell := generate_cell nd.1 cell_path in
          set_cell nd.2 cell
      end)).

(** [add_cells(circ, mag, path)], lines 170-198.  [add_cells] calls itself
    from its handler; [fuel] bounds the depth of that recursion. *)
Fixpoint add_cells (fuel : nat) (circ : loc) (mag : option Magic) (path : string) : M unit :=
  match fuel with
  | O => out_of_fuel
  | S fuel' =>
      emit (Call_add_cells circ path) >>
      try_except
        (bind_pass circ path)
        (print "Magic-view can't be found!" >>
         print ("Generating new view under '" +:+ path +:+ "'!") >>
         instantiate_circuit circ mag path >>
         add_cells fuel' circ mag path)
        (let* w := get in
         print ("Adding cells to " +:+ circuit_str X (circuits w) circ +:+ " failed!") >>
         sys_exit 1)
  end.

(** [place_circuit(name, Circuit, mag, path, debug, clean_path)], lines
    201-248.  Neither [Circuit] nor [debug] nor [clean_path] is read. *)
Definition place_circuit (name : string) (Circuit : loc) (mag : option Magic)
    (path : string) (debug clean_path : bool) : M unit :=
  emit (Call_place_circuit name Circuit path debug clean_path) >>
  let* lines := method mag (fun m => place_circuit_lines m name "") in
  ensure_dir path >>
  clear_through_tool mag path >>
  mag_command mag (Batch lines).

(** [copy.deepcopy(circ)]: the world with the copy in it, and the copy. *)
Definition copy_deepcopy (circ : loc) : M loc :=
  fun w => let r := deepcopy X w circ in (Ok r.2, r.1).

(** [obj.attr.method(...)] where the attribute may be [None]. *)
Definition not_None {A} (o : option A) : M A :=
  match o with Some a => ret a | None => raise AttributeError end.

(** The body of the loop of [place_circuit_hierachical], lines 277-291;
    [type(circ) == SubCircuit] is the presence of a [sub_device]. *)
Definition place_entry (name : string) (mag : option Magic) (path : string)
    (tc : Topology.entry) : M unit :=
  let circ := tc.2 in
  let* c := deref circuits circ in
  match circ_sub_device c with
  | Some _ =>
      let* circ_c := copy_deepcopy circ in
      let* cc := deref circuits circ_c in
      let* sub_device := not_None (circ_sub_device cc) in
      let* sd := deref devs sub_device in
      let* macro_cell := not_None (dev_cell sd) in
      move_center macro_cell (0, 0) >>
      let* mc := deref cells macro_cell in
      rotate_center macro_cell (- cell_rotation mc) >>
      move_cells_to_bound macro_cell >>
      let* sd := deref devs sub_device in
      place_circuit (dev_name sd) circ_c mag path false false >>
      let* c := deref circuits circ in
      let* d := not_None (circ_sub_device c) in
      let* dv := deref devs d in
      let* cl := not_None (dev_cell dv) in
      add_path cl (realpath X path)
  | None =>
      place_circuit name circ mag path false false
  end.

(** [place_circuit_hierachical(name, circuit, mag, path, clean_path)], lines
    251-291. *)
Definition place_circuit_hierachical (name : string) (circuit : loc)
    (mag : option Magic) (path : string) (clean_path : bool) : M unit :=
  emit (Call_place_circuit_hierachical name circuit path clean_path) >>
  let* w := get in
  (if path_exists path w && clean_path then rmtree path else ret tt) >>
  ensure_dir path >>
  let* w := get in
  let* topology := lift (get_bottom_up_topology X (circuits w) (devs w) circuit) in
  let topology := Topology.sort_desc topology in
  for_each topology (place_entry name mag path).

End Utils.

(** ** Relations preserved by a computation *)

(** A relation between the world before and after a computation that holds
    whatever the outcome. *)
Definition preserves {A} (P : World -> World -> Prop) (m : M A) : Prop :=
  forall w r w', m w = (r, w') -> P w w'.

Class Frame (P : World -> World -> Prop) : Prop := {
  frame_refl : forall w, P w w;
  frame_trans : forall w1 w2 w3, P w1 w2 -> P w2 w3 -> P w1 w3
}.

(** ** The topology of a hierarchy, from the specification *)

Module SpecModel.

(** The circuits embedded in circuit [c] through its macro devices, in the
    order of the devices. *)
Definition children (ds : gmap loc Device) (c : Circuit) : list loc :=
  omap (fun nd : string * loc =>
          match ds !! nd.2 with
          | Some d => match dev_class d with
                      | SubDevice => dev_circuit d
                      | Primitive => None
                      end
          | None => None
          end) (circ_devices c).

Fixpoint collect {A} (rs : list (exn + A)) : exn + list A :=
  match rs with
  | [] => inr []
  | inl e :: _ => inl e
  | inr a :: rs' => match collect rs' with
                    | inl e => inl e
                    | inr l => inr (a :: l)
                    end
  end.

(** Modelled from the spec: [get_top_down_topology] of
    [SchematicCapture.utils], absent from src/.  Section 4.1: the root has
    layer 0, a circuit embedded through a macro device has the layer of its
    parent plus one, "each reachable occurrence is recorded at its
    discovered depth", and the traversal "fails with CycleError if [it]
    revisits a Circuit already on the active path".  [fuel] bounds the
    depth of the recursion. *)
Fixpoint top_down (fuel : nat) (cs : gmap loc Circuit) (ds : gmap loc Device)
    (active : list loc) (layer : Z) (c : loc) : exn + list Topology.entry :=
  match fuel with
  | O => inl (ExternalError "RecursionError")
  | S fuel' =>
      if bool_decide (c ∈ active) then inl (ExternalError "CycleError")
      else match cs !! c with
           | None => inl (ExternalError "invalid reference")
           | Some co =>
               match collect (map (top_down fuel' cs ds (c :: active) (layer + 1))
                                  (children ds co)) with
               | inl e => inl e
               | inr subs => inr ((layer, c) :: concat subs)
               end
           end
  end.

Definition get_top_down_topology (cs : gmap loc Circuit) (ds : gmap loc Device)
    (c : loc) : exn + list Topology.entry :=
  top_down (S (size cs)) cs ds [] 0 c.

(** Modelled from the spec: [get_bottom_up_topology] of
    [SchematicCapture.utils], absent from src/.  Section 4.1: "leaves
    (Circuits with no Macro Device children) are layer 0; a composite's
    layer is one more than the maximum layer among its direct composite
    children".  The result is the layer of [c] and the entries of [c] and
    of all below it. *)
Fixpoint bottom_up (fuel : nat) (cs : gmap loc Circuit) (ds : gmap loc Device)
    (active : list loc) (c : loc) : exn + (Z * list Topology.entry) :=
  match fuel with
  | O => inl (ExternalError "RecursionError")
  | S fuel' =>
      if bool_decide (c ∈ active) then inl (ExternalError "CycleError")
      else match cs !! c with
           | None => inl (ExternalError "invalid reference")
           | Some co =>
               match collect (map (bottom_up fuel' cs ds (c :: active)) (children ds co)) with
               | inl e => inl e
               | inr subs =>
                   let layer := match subs with
                                | [] => 0
                                | _ => 1 + foldr Z.max 0 (map fst subs)
                                end in
                   inr (layer, (layer, c) :: concat (map snd subs))
               end
           end
  end.

Definition get_bottom_up_topology (cs : gmap loc Circuit) (ds : gmap loc Device)
    (c : loc) : exn + list Topology.entry :=
  match bottom_up (S (size cs)) cs ds [] c with
  | inl e => inl e
  | inr r => inr r.2
  end.

End SpecModel.

(** ** A concrete hierarchy, tool and file system

    The hierarchy of section 8 of the specification: the top circuit embeds
    the composite A through the macro device XA, A embeds the composite L
    through XL, and L has the two primitive devices M1 and M2. *)
Module Demo.

Definition top : loc := 0%nat.
Definition circA : loc := 1%nat.
Definition circL : loc := 2%nat.

Definition devXA : loc := 0%nat.
Definition devXL : loc := 1%nat.
Definition devM1 : loc := 2%nat.
Definition devM2 : loc := 3%nat.

Definition cellXA : loc := 0%nat.
Definition cellXL : loc := 1%nat.
Definition cellM1 : loc := 2%nat.
Definition cellM2 : loc := 3%nat.

Definition demo_circuits : gmap loc Circuit :=
  {[ top := mkCircuit "top" [("XA", devXA)] None;
     circA := mkCircuit "A" [("XL", devXL)] (Some devXA);
     circL := mkCircuit "L" [("M1", devM1); ("M2", devM2)] (Some devXL) ]}.

(** Devices before any cell is bound. *)
Definition unbound_devs : gmap loc Device :=
  {[ devXA := mkDevice "XA" SubDevice (Some circA) None;
     devXL := mkDevice "XL" SubDevice (Some circL) None;
     devM1 := mkDevice "M1" Primitive None None;
     devM2 := mkDevice "M2" Primitive None None ]}.

(** Devices after binding and placement of the leaves: the macro devices
    own macro cells, the primitive devices own cells. *)
Definition placed_devs : gmap loc Device :=
  {[ devXA := mkDevice "XA" SubDevice (Some circA) (Some cellXA);
     devXL := mkDevice "XL" SubDevice (Some circL) (Some cellXL);
     devM1 := mkDevice "M1" Primitive None (Some cellM1);
     devM2 := mkDevice "M2" Primitive None (Some cellM2) ]}.

Definition placed_cells : gmap loc Cell :=
  {[ cellXA := mkCell ClsMacroCell "XA" [] (Some "old/Placement") (40, 10) 90 (6, 10) [cellXL];
     cellXL := mkCell ClsMacroCell "XL" [] (Some "old/Placement") (7, 9) 90 (4, 10)
                      [cellM1; cellM2];
     cellM1 := mkCell ClsCell "M1" ["li1"] (Some "old/Devices") (5, 7) 0 (4, 4) [];
     cellM2 := mkCell ClsCell "M2" ["li1"] (Some "old/Devices") (9, 12) 0 (4, 6) [] ]}.

Definition devices_dir : string := "/work/Magic/Devices".
Definition placement_dir : string := "/work/Magic/Placement".

(** No artifact directory yet. *)
Definition empty_fs : FS := ∅.

(** The artifact directory holds both cell views. *)
Definition generated_fs : FS :=
  {[ devices_dir := {[ "M1.mag" := "li1 m1"; "M2.mag" := "li1" ]} ]}.

Definition world (d : gmap loc Device) (c : gmap loc Cell) (f : FS) : World :=
  mkWorld demo_circuits d c f "/work" "/work" [].

(** A store copied as a whole to fresh locations: the object at [l] gets a
    twin at [l + k] whose references are moved by [k] as well, so the twin
    of an object is the root of a copy of all it reaches. *)
Definition bound {A} (m : gmap loc A) : nat := S (foldr Nat.max 0%nat (map fst (map_to_list m))).

Definition twins {A} (k : nat) (f : A -> A) (m : gmap loc A) : gmap loc A :=
  m ∪ list_to_map (map (fun la : loc * A => ((la.1 + k)%nat, f la.2)) (map_to_list m)).

Definition deepcopy (w : World) (c : loc) : World * loc :=
  let k := Nat.max (bound (circuits w)) (Nat.max (bound (devs w)) (bound (cells w))) in
  let mv := fun l : loc => (l + k)%nat in
  (mkWorld
     (twins k (fun c => mkCircuit (circ_name c)
                          (map (fun nd : string * loc => (nd.1, mv nd.2)) (circ_devices c))
                          (mv <$> circ_sub_device c)) (circuits w))
     (twins k (fun d => mkDevice (dev_name d) (dev_class d)
                          (mv <$> dev_circuit d) (mv <$> dev_cell d)) (devs w))
     (twins k (fun c => mkCell (cell_class c) (cell_name c) (cell_layers c) (cell_path c)
                          (cell_center c) (cell_rotation c) (cell_size c)
                          (map mv (cell_children c))) (cells w))
     (fs w) (cwd w) (tool_cwd w) (trace w),
   mv c).

Definition X : Externals :=
  mkExternals
    (fun p => Path.join "/work" p)
    (fun contents => if String.eqb contents "" then None else Some [contents])
    (fun _ => (4, 4))
    (fun cs c => match cs !! c with Some co => circ_name co | None => "?" end)
    SpecModel.get_top_down_topology
    SpecModel.get_bottom_up_topology
    deepcopy.

Definition write_views (d : string) (f : FS) : FS :=
  <[d := <["M1.mag" := "li1"]> (<["M2.mag" := "li1"]> (default ∅ (f !! d)))]> f.

(** A tool whose generated lines write the cell views of M1 and M2 into
    the directory the session is in. *)
Definition working_tool : Magic :=
  mkMagic (fun _ => inr ["gen M1"; "gen M2"])
          (fun name _ _ => inr ["place " +:+ name])
          (fun _ d f => inr (write_views d f)).

(** A tool whose generated lines write nothing. *)
Definition silent_tool : Magic :=
  mkMagic (fun _ => inr []) (fun _ _ _ => inr []) (fun _ _ f => inr f).

Fixpoint step_mark (n : nat) : string :=
  match n with
  | O => "step"
  | S k => step_mark k +:+ "+"
  end.

(** A tool that needs six batches before its views are on disk: each of
    the first five batches only leaves a progress mark in the directory. *)
Definition slow_tool : Magic :=
  mkMagic (fun _ => inr ["gen M1"; "gen M2"])
          (fun name _ _ => inr ["place " +:+ name])
          (fun _ d f =>
             let entries := default ∅ (f !! d) in
             if (5 <=? size entries)%nat then inr (write_views d f)
             else inr (<[d := <[step_mark (size entries) := ""]> entries]> f)).

(** A tool whose session fails on every batch. *)
Definition broken_tool : Magic :=
  mkMagic (fun _ => inr []) (fun _ _ _ => inr [])
          (fun _ _ _ => inl (ExternalError "ToolSessionError")).

End Demo.

(** ** Orders on topology entries *)

Definition layer_le (a b : Topology.entry) : Prop := (a.1 <= b.1)%Z.
Definition layer_ge (a b : Topology.entry) : Prop := (b.1 <= a.1)%Z.

(** The entries of layer [k], in the order of the list. *)
Definition of_layer (k : Z) (l : list Topology.entry) : list Topology.entry :=
  filter (fun e => e.1 = k) l.

(** ** Frames: what a computation leaves alone *)

(** The object store is as it was. *)
Definition same_store (w w' : World) : Prop :=
  circuits w' = circuits w /\ devs w' = devs w /\ cells w' = cells w.

(** Circuits and devices are as they were (cells may change). *)
Definition same_devices (w w' : World) : Prop :=
  circuits w' = circuits w /\ devs w' = devs w.

(** The files and both working directories are as they were. *)
Definition same_files (w w' : World) : Prop :=
  fs w' = fs w /\ cwd w' = cwd w /\ tool_cwd w' = tool_cwd w.

(** The object device [nd] owns, if it has one. *)
Definition owned_object (w : World) (nd : string * loc) : option loc :=
  match devs w !! nd.2 with
  | Some dv => dev_cell dv
  | None => None
  end.

(** The same, if that object's class is exactly [Cell]. *)
Definition owned_Cell (w : World) (nd : string * loc) : option loc :=
  match owned_object w nd with
  | Some cl => match cells w !! cl with
               | Some c => match cell_class c with
                           | ClsCell => Some cl
                           | ClsMacroCell => None
                           end
               | None => None
               end
  | None => None
  end.

(** [l] is a [Cell] owned by one of the devices [ds]. *)
Definition rebound (w : World) (ds : list (string * loc)) (l : loc) : bool :=
  existsb (fun nd => bool_decide (owned_Cell w nd = Some l)) ds.

(** The body of the last loop of [instantiate_devices]. *)
Definition rebind_device (p : string) (nd : string * loc) : M unit :=
  let* device := deref devs nd.2 in
  match dev_cell device with
  | None => ret tt
  | Some cl =>
      let* cell := deref cells cl in
      match cell_class cell with
      | ClsCell => add_path cl p
      | _ => ret tt
      end
  end.

(** The part of [instantiate_devices] before its last loop. *)
Definition submit_generation (Circuit : loc) (mag : option Magic)
    (path : string) (del_path : bool) : M unit :=
  emit (Call_instantiate_devices Circuit path del_path) >>
  let* lines := method mag gen_devices in
  let* w := get in
  (if path_exists path w && del_path then rmtree path else ret tt) >>
  ensure_dir path >>
  mag_command mag (Batch lines).

(** C7 as the specification words it: every object that a device of the
    circuit owns ends with the resolved storage path. *)
Definition every_owned_cell_rebound (X : Externals) (Circuit : loc) (path : string)
    (w w' : World) : Prop :=
  forall c nd cl,
    circuits w !! Circuit = Some c -> nd ∈ circ_devices c ->
    owned_object w nd = Some cl ->
    cell_path <$> cells w' !! cl = Some (Some (realpath X path)).

(** Everything but the files is as it was. *)
Definition only_files (w w' : World) : Prop :=
  same_store w w' /\ cwd w' = cwd w /\ tool_cwd w' = tool_cwd w /\ trace w' = trace w.

(** ** Reading the trace *)

Definition is_call (e : Event) : bool :=
  match e with
  | Call_instantiate_circuit _ _ | Call_instantiate_devices _ _ _
  | Call_generate_cell _ _ | Call_add_cells _ _
  | Call_place_circuit _ _ _ _ _ | Call_place_circuit_hierachical _ _ _ _
  | Call_rmtree _ => true
  | _ => false
  end.

(** The entries into functions of utils.py and into [shutil.rmtree]. *)
Definition calls (t : list Event) : list Event := filter (fun e => is_call e = true) t.

(** Neither a directory removal nor a single command line to the tool. *)
Definition no_cleaning (e : Event) : Prop :=
  match e with
  | Call_rmtree _ | Send (Line _) => False
  | _ => True
  end.

(** The loop of [instantiate_circuit]. *)
Definition instantiate_layers (X : Externals) (mag : option Magic) (path : string)
    (topology : list Topology.entry) : M unit :=
  for_each topology (fun tc =>
    print "Diagnostic:  instantiating devices." >>
    instantiate_devices X tc.2 mag path false).

(** The world after [if not os.path.exists(path): os.makedirs(path)]. *)
Definition with_dir (path : string) (w : World) : World :=
  if path_exists path w then w else with_fs (fun f => <[absdir w path := ∅]> f) w.

(** The world in which [place_circuit] submits its placement lines. *)
Definition cleared_for_placement (name : string) (Circuit : loc) (path : string)
    (debug clean_path : bool) (w : World) : World :=
  mkWorld (circuits w) (devs w) (cells w)
          (delete_mag_files (absdir w path) (fs (with_dir path w)))
          (cwd w) (absdir w path)
          (trace w ++ [Call_place_circuit name Circuit path debug clean_path;
                       Send (Line ("cd " +:+ absdir w path));
                       Send (Line foreach_delete)]).

(** ** The composite branch of the placement loop *)

(** Cells outside [T] are as they were. *)
Definition cells_outside (T : loc -> Prop) (w w' : World) : Prop :=
  forall l, ~ T l -> cells w' !! l = cells w !! l.

(** The steps of the composite branch, for a run that returns. *)
Record CompositeRun (X : Externals) (mag : option Magic) (path : string)
    (circ : loc) (w w' : World) := mkCompositeRun {
  cr_snapshot : World;      (* the world after [copy.deepcopy(circ)] *)
  cr_circ_c : loc;
  cr_sub_device : loc;
  cr_macro_cell : loc;
  cr_centered : World;
  cr_unrotated : World;
  cr_bounded : World;
  cr_placed : World;
  cr_rotation : Z;
  cr_name : string;
  cr_original_cell : loc;
  cr_deepcopy : deepcopy X w circ = (cr_snapshot, cr_circ_c);
  cr_has_sub_device :
    circ_sub_device <$> circuits cr_snapshot !! cr_circ_c = Some (Some cr_sub_device);
  cr_has_cell :
    dev_cell <$> devs cr_snapshot !! cr_sub_device = Some (Some cr_macro_cell);
  cr_move : move_center cr_macro_cell (0, 0) cr_snapshot = (Ok tt, cr_centered);
  cr_read_rotation :
    cell_rotation <$> cells cr_centered !! cr_macro_cell = Some cr_rotation;
  cr_rotate : rotate_center cr_macro_cell (- cr_rotation) cr_centered = (Ok tt, cr_unrotated);
  cr_bound : move_cells_to_bound cr_macro_cell cr_unrotated = (Ok tt, cr_bounded);
  cr_read_name : dev_name <$> devs cr_bounded !! cr_sub_device = Some cr_name;
  cr_place :
    place_circuit cr_name cr_circ_c mag path false false cr_bounded = (Ok tt, cr_placed);
  cr_original :
    exists c d dv,
      circuits cr_placed !! circ = Some c /\ circ_sub_device c = Some d /\
      devs cr_placed !! d = Some dv /\ dev_cell dv = Some cr_original_cell;
  cr_rebind : add_path cr_original_cell (realpath X path) cr_placed = (Ok tt, w')
}.

(** [copy.deepcopy] touches no file and changes no directory. *)
Definition deepcopy_keeps_files (X : Externals) : Prop :=
  forall w c, same_files w (deepcopy X w c).1.

(** ** The bind pass of [add_cells] *)

(** The body of the inner loop of [add_cells]. *)
Definition bind_device (X : Externals) (path : string) (nd : string * loc) : M unit :=
  let* d := deref devs nd.2 in
  match dev_class d with
  | SubDevice => ret tt
  | _ =>
      let cell_path := path in
      let* cell := generate_cell X nd.1 cell_path in
      set_cell nd.2 cell
  end.

(** The devices of circuit [c], as [c.devices.items()] lists them. *)
Definition devices_of (w : World) (c : loc) : list (string * loc) :=
  match circuits w !! c with
  | Some co => circ_devices co
  | None => []
  end.

(** [type(d) is not SubDevice] *)
Definition is_primitive (w : World) (nd : string * loc) : bool :=
  match devs w !! nd.2 with
  | Some dv => match dev_class dv with SubDevice => false | Primitive => true end
  | None => false
  end.

(** The devices the bind pass visits, in the order in which it visits them. *)
Definition bind_work (w : World) (topology : list Topology.entry) : list (string * loc) :=
  flat_map (fun tc : Topology.entry => devices_of w tc.2) (Topology.sort_asc topology).

(** [c] is what a lookup of [name] in [path] returns in world [w]. *)
Definition looked_up (X : Externals) (path : string) (w : World) (name : string) (c : Cell)
  : Prop :=
  exists contents layers,
    mag_file path name w = Some contents /\
    parse_layers X contents = Some layers /\
    c = mkCell ClsCell name layers (Some (realpath X path)) (0, 0) 0 (cell_extent X layers) [].

(** Device [d] owns a cell that was looked up under one of the names under
    which [work] lists [d]. *)
Definition bound_to_lookup (X : Externals) (path : string) (w0 : World)
    (work : list (string * loc)) (d : loc) (w : World) : Prop :=
  exists dv cl c,
    devs w !! d = Some dv /\ dev_cell dv = Some cl /\ cells w !! cl = Some c /\
    (cell_name c, d) ∈ work /\ looked_up X path w0 (cell_name c) c.

(** What the bind pass keeps of the world [w0] it started in. *)
Definition bind_invariant (w0 w : World) : Prop :=
  circuits w = circuits w0 /\ same_files w0 w /\
  (forall d, dev_class <$> devs w !! d = dev_class <$> devs w0 !! d) /\
  (forall d dv, devs w0 !! d = Some dv -> dev_class dv = SubDevice -> devs w !! d = Some dv) /\
  (forall l c, cells w0 !! l = Some c -> cells w !! l = Some c).

Definition same_circuits (w w' : World) : Prop := circuits w' = circuits w.

(** ** Rounds and heals of [add_cells] *)

Definition is_round (e : Event) : bool :=
  match e with Call_add_cells _ _ => true | _ => false end.

Definition is_heal (e : Event) : bool :=
  match e with Call_instantiate_circuit _ _ => true | _ => false end.

Definition count (f : Event -> bool) (t : list Event) : nat :=
  length (filter (fun e => f e = true) t).

(** Lookup rounds: entries into [add_cells], each of which runs the [try]
    block once. *)
Definition rounds (w : World) : nat := count is_round (trace w).

(** Heals: invocations of the Hierarchy Instantiator. *)
Definition heals (w : World) : nat := count is_heal (trace w).

(** The trace grows, and only by events that satisfy [Q]. *)
Definition emits_only (Q : Event -> Prop) (w w' : World) : Prop :=
  exists evs, trace w' = trace w ++ evs /\ Forall Q evs.

(** Neither a lookup round nor a heal. *)
Definition quiet (e : Event) : Prop := is_round e = false /\ is_heal e = false.

(** ** Ways in which a computation ends *)

(** Returned or raised: neither [sys.exit] nor an exhausted budget. *)
Definition plain {A} (r : Res A) : Prop :=
  match r with Ok _ | Raise _ => True | _ => False end.

Definition raises_only {A} (m : M A) : Prop := forall w, plain (m w).1.

(** ** The recursion of [add_cells] *)

(** The world in which the [try] block of [add_cells] starts. *)
Definition entered (circ : loc) (path : string) (w : World) : World :=
  with_trace (fun t => t ++ [Call_add_cells circ path]) w.

(** [print(f"Adding cells to {circ} failed!")] *)
Definition failure_report (X : Externals) (circ : loc) (w : World) : Event :=
  Printed ("Adding cells to " +:+ circuit_str X (circuits w) circ +:+ " failed!").

(** The handler of [FileNotFoundError]. *)
Definition heal_and_retry (X : Externals) (fuel : nat) (circ : loc) (mag : option Magic)
    (path : string) : M unit :=
  print "Magic-view can't be found!" >>
  print ("Generating new view under '" +:+ path +:+ "'!") >>
  instantiate_circuit X circ mag path >>
  add_cells X fuel circ mag path.

(** The three ways in which a run of [add_cells] ends, with the number [R]
    of lookup rounds and the number [H] of heals it made. *)
Definition add_cells_ending (X : Externals) (circ : loc) (mag : option Magic)
    (path : string) (r : Res unit) (w' : World) (R H : nat) : Prop :=
  (r = Ok tt /\ R = S H /\
   exists wl, bind_pass X circ path (entered circ path wl) = (Ok tt, w')) \/
  (r = Exit 1 /\ R = S H /\
   exists wl, trace w' = trace wl ++ [failure_report X circ wl]) \/
  (exists e, r = Raise e /\ R = H /\ (1 <= R)%nat /\
   exists wi, instantiate_circuit X circ mag path wi = (Raise e, w')).

(** C1 as the specification words it: at most one heal and at most two
    lookup rounds in a run. *)
Definition healed_at_most_once (X : Externals) (fuel : nat) (circ : loc)
    (mag : option Magic) (path : string) (w : World) : Prop :=
  let w' := (add_cells X fuel circ mag path w).2 in
  (heals w' <= heals w + 1)%nat /\ (rounds w' <= rounds w + 2)%nat.

(** ** The exit status of the script *)

(** The status with which the process ends when [add_cells], called from
    [main], ends with [r]: none if it returns (the script goes on), [n]
    after [sys.exit(n)], and 1 when an exception leaves [main], which the
    interpreter reports with a traceback. *)
Definition exit_status (r : Res unit) : option Z :=
  match r with
  | Ok _ => None
  | Exit z => Some z
  | Raise _ => Some 1
  | OutOfFuel => None
  end.

(** ** The contract of [copy.deepcopy] *)

Definition same_trace (w w' : World) : Prop := trace w' = trace w.

Definition any_event (e : Event) : Prop := True.

(** What [copy.deepcopy(circ)] guarantees: the objects that were there are
    untouched, no file, directory or trace changes, and the copy and what
    the normalisation reaches from it (its macro device, the macro cell and
    the cells of its children) are new objects. *)
Definition snapshot_fresh (w ws : World) (circ_c : loc) : Prop :=
  (circuits w ⊆ circuits ws) /\ (devs w ⊆ devs ws) /\ (cells w ⊆ cells ws) /\
  same_files w ws /\ trace ws = trace w /\
  (circ_c ∉ dom (circuits w)) /\
  forall cc d dv m,
    circuits ws !! circ_c = Some cc -> circ_sub_device cc = Some d ->
    devs ws !! d = Some dv -> dev_cell dv = Some m ->
    (d ∉ dom (devs w)) /\ (m ∉ dom (cells w)) /\
    forall mc k, cells ws !! m = Some mc -> k ∈ cell_children mc -> k ∉ dom (cells w).

(** ** Normalisation of a macro cell *)

(** The three calls that [place_circuit_hierachical] makes on the macro
    cell of the snapshot. *)
Definition normalize_macro_cell (macro_cell : loc) : M unit :=
  move_center macro_cell (0, 0) >>
  (let* mc := deref cells macro_cell in
   rotate_center macro_cell (- cell_rotation mc)) >>
  move_cells_to_bound macro_cell.

(** Center at the origin, rotation undone, and the bounding box of the
    children with its lower left corner at the origin (or no children). *)
Definition normalized (w : World) (macro_cell : loc) : Prop :=
  exists mc kids,
    cells w !! macro_cell = Some mc /\
    cell_center mc = (0, 0) /\ cell_rotation mc = 0 /\
    deref_all (cell_children mc) w = (Ok kids, w) /\
    (joint_lower_left kids = None \/ joint_lower_left kids = Some (0, 0)).

(** ** The names placed *)


(** * Properties *)

(** ** Reasoning about monadic code *)

Lemma bind_Ok {A B} (m : M A) (k : A -> M B) w b w' :
  bind m k w = (Ok b, w') ->
  exists a w1, m w = (Ok a, w1) /\ k a w1 = (Ok b, w').
Proof.
  unfold bind. destruct (m w) as [[a | e | z |] w1]; intros H; try discriminate.
  exists a, w1. auto.
Qed.

Lemma bind_step {A B} (m : M A) (k : A -> M B) w a w1 :
  m w = (Ok a, w1) -> bind m k w = k a w1.
Proof. unfold bind. intros ->. reflexivity. Qed.

Lemma for_each_cons {A} (x : A) l (body : A -> M unit) :
  for_each (x :: l) body = (body x >> for_each l body).
Proof. reflexivity. Qed.

Lemma for_each_app {A} (l1 l2 : list A) (body : A -> M unit) w :
  for_each (l1 ++ l2) body w = (for_each l1 body >> for_each l2 body) w.
Proof.
  revert w. induction l1 as [| x l1 IH]; intros w; simpl.
  - reflexivity.
  - unfold bind in *. destruct (body x w) as [[[] | e | z |] w1]; try reflexivity.
    apply IH.
Qed.

Section Preserves.

Context (P : World -> World -> Prop) `{!Frame P}.

Lemma preserves_ret {A} (a : A) : preserves P (ret a).
Proof. intros w r w' [= <- <-]. apply frame_refl. Qed.

Lemma preserves_raise {A} e : preserves P (@raise A e).
Proof. intros w r w' [= <- <-]. apply frame_refl. Qed.

Lemma preserves_sys_exit {A} z : preserves P (@sys_exit A z).
Proof. intros w r w' [= <- <-]. apply frame_refl. Qed.

Lemma preserves_out_of_fuel {A} : preserves P (@out_of_fuel A).
Proof. intros w r w' [= <- <-]. apply frame_refl. Qed.

Lemma preserves_get : preserves P get.
Proof. intros w r w' [= <- <-]. apply frame_refl. Qed.

Lemma preserves_lift {A} (x : exn + A) : preserves P (lift x).
Proof. destruct x; [apply preserves_raise | apply preserves_ret]. Qed.

Lemma preserves_deref {A} (sel : World -> gmap loc A) l : preserves P (deref sel l).
Proof.
  intros w r w'. unfold deref. destruct (sel w !! l); intros [= <- <-]; apply frame_refl.
Qed.

Lemma preserves_not_None {A} (o : option A) : preserves P (not_None o).
Proof. destruct o; [apply preserves_ret | apply preserves_raise]. Qed.

Lemma preserves_copy_deepcopy X circ :
  (forall w c, P w (deepcopy X w c).1) -> preserves P (copy_deepcopy X circ).
Proof. intros H w r w' [= <- <-]. apply H. Qed.

Lemma preserves_modify f : (forall w, P w (f w)) -> preserves P (modify f).
Proof. intros Hf w r w' [= <- <-]. apply Hf. Qed.

Lemma preserves_bind {A B} (m : M A) (k : A -> M B) :
  preserves P m -> (forall a, preserves P (k a)) -> preserves P (bind m k).
Proof.
  intros Hm Hk w r w'. unfold bind.
  destruct (m w) as [[a | e | z |] w1] eqn:E; intros H.
  - eapply frame_trans; [eapply Hm, E | eapply Hk, H].
  - injection H as <- <-. eapply Hm, E.
  - injection H as <- <-. eapply Hm, E.
  - injection H as <- <-. eapply Hm, E.
Qed.

Lemma preserves_for_each {A} (l : list A) (body : A -> M unit) :
  (forall x, preserves P (body x)) -> preserves P (for_each l body).
Proof.
  intros Hb. induction l as [| x l IH]; simpl.
  - apply preserves_ret.
  - apply preserves_bind; auto.
Qed.

Lemma preserves_deref_all ls : preserves P (deref_all ls).
Proof.
  induction ls as [| l ls IH]; simpl.
  - apply preserves_ret.
  - apply preserves_bind; [apply preserves_deref |]. intros c.
    apply preserves_bind; [apply IH |]. intros cs. apply preserves_ret.
Qed.

Lemma preserves_try_except {A} (body h1 h2 : M A) :
  preserves P body -> preserves P h1 -> preserves P h2 ->
  preserves P (try_except body h1 h2).
Proof.
  intros Hb H1 H2 w r w'. unfold try_except.
  destruct (body w) as [[a | e | z |] w1] eqn:E; intros H.
  - injection H as <- <-. eapply Hb, E.
  - destruct (is_FileNotFoundError e);
      (eapply frame_trans; [eapply Hb, E |]); [eapply H1, H | eapply H2, H].
  - eapply frame_trans; [eapply Hb, E | eapply H2, H].
  - injection H as <- <-. eapply Hb, E.
Qed.

End Preserves.

(** One step of a frame proof: split the computation at its head. *)
Ltac frame_step :=
  lazymatch goal with
  | |- preserves _ (bind _ _) => apply preserves_bind; [exact _ | | intros ?]
  | |- preserves _ (ret _) => apply preserves_ret
  | |- preserves _ (raise _) => apply preserves_raise
  | |- preserves _ (sys_exit _) => apply preserves_sys_exit
  | |- preserves _ out_of_fuel => apply preserves_out_of_fuel
  | |- preserves _ get => apply preserves_get
  | |- preserves _ (lift _) => apply preserves_lift
  | |- preserves _ (deref _ _) => apply preserves_deref
  | |- preserves _ (deref_all _) => apply preserves_deref_all
  | |- preserves _ (not_None _) => apply preserves_not_None
  | |- preserves _ (for_each _ _) => apply preserves_for_each; [exact _ | intros ?]
  | |- preserves _ (try_except _ _ _) => apply preserves_try_except
  | |- preserves _ (match ?x with _ => _ end) => destruct x
  | |- preserves _ (let _ := _ in _) => cbv zeta
  end; try exact _.

Create HintDb frame discriminated.


(** ** The sorts are stable sorts *)

Section SortFacts.

Import Topology.

Lemma insert_asc_perm x l : Permutation (insert_asc x l) (x :: l).
Proof.
  induction l as [| y l IH]; simpl; [reflexivity |].
  destruct (y.1 <? x.1)%Z; [| reflexivity].
  rewrite IH. apply perm_swap.
Qed.

Lemma sort_asc_perm l : Permutation (sort_asc l) l.
Proof.
  induction l as [| x l IH]; simpl; [reflexivity |].
  rewrite insert_asc_perm. by constructor.
Qed.

Lemma insert_desc_perm x l : Permutation (insert_desc x l) (x :: l).
Proof.
  induction l as [| y l IH]; simpl; [reflexivity |].
  destruct (x.1 <? y.1)%Z; [| reflexivity].
  rewrite IH. apply perm_swap.
Qed.

Lemma sort_desc_perm l : Permutation (sort_desc l) l.
Proof.
  induction l as [| x l IH]; simpl; [reflexivity |].
  rewrite insert_desc_perm. by constructor.
Qed.

Lemma insert_asc_sorted x l :
  StronglySorted layer_le l -> StronglySorted layer_le (insert_asc x l).
Proof.
  induction 1 as [| y l Hs IH Hall]; simpl.
  - repeat constructor.
  - destruct (Z.ltb_spec y.1 x.1) as [Hlt | Hge].
    + constructor; [exact IH |].
      rewrite insert_asc_perm. constructor; [unfold layer_le; lia | exact Hall].
    + constructor; [by constructor |].
      constructor; [exact Hge |].
      eapply Forall_impl; [exact Hall |]. unfold layer_le. intros; simpl in *; lia.
Qed.

Lemma sort_asc_sorted l : StronglySorted layer_le (sort_asc l).
Proof.
  induction l as [| x l IH]; simpl; [constructor | by apply insert_asc_sorted].
Qed.

Lemma insert_desc_sorted x l :
  StronglySorted layer_ge l -> StronglySorted layer_ge (insert_desc x l).
Proof.
  induction 1 as [| y l Hs IH Hall]; simpl.
  - repeat constructor.
  - destruct (Z.ltb_spec x.1 y.1) as [Hlt | Hge].
    + constructor; [exact IH |].
      rewrite insert_desc_perm. constructor; [unfold layer_ge; lia | exact Hall].
    + constructor; [by constructor |].
      constructor; [exact Hge |].
      eapply Forall_impl; [exact Hall |]. unfold layer_ge. intros; simpl in *; lia.
Qed.

Lemma sort_desc_sorted l : StronglySorted layer_ge (sort_desc l).
Proof.
  induction l as [| x l IH]; simpl; [constructor | by apply insert_desc_sorted].
Qed.

Lemma of_layer_cons k y l :
  of_layer k (y :: l) = if decide (y.1 = k) then y :: of_layer k l else of_layer k l.
Proof. unfold of_layer. by rewrite filter_cons. Qed.

Lemma insert_asc_stable k x l :
  StronglySorted layer_le l ->
  of_layer k (insert_asc x l) = of_layer k (x :: l).
Proof.
  induction 1 as [| y l Hs IH Hall]; simpl; [reflexivity |].
  destruct (Z.ltb_spec y.1 x.1) as [Hlt | Hge]; [| reflexivity].
  rewrite (of_layer_cons k y (insert_asc x l)), IH, !of_layer_cons.
  repeat case_decide; try reflexivity; lia.
Qed.

Lemma sort_asc_stable k l : of_layer k (sort_asc l) = of_layer k l.
Proof.
  induction l as [| x l IH]; simpl; [reflexivity |].
  rewrite insert_asc_stable by apply sort_asc_sorted.
  by rewrite !of_layer_cons, IH.
Qed.

Lemma insert_desc_stable k x l :
  StronglySorted layer_ge l ->
  of_layer k (insert_desc x l) = of_layer k (x :: l).
Proof.
  induction 1 as [| y l Hs IH Hall]; simpl; [reflexivity |].
  destruct (Z.ltb_spec x.1 y.1) as [Hlt | Hge]; [| reflexivity].
  rewrite (of_layer_cons k y (insert_desc x l)), IH, !of_layer_cons.
  repeat case_decide; try reflexivity; lia.
Qed.

Lemma sort_desc_stable k l : of_layer k (sort_desc l) = of_layer k l.
Proof.
  induction l as [| x l IH]; simpl; [reflexivity |].
  rewrite insert_desc_stable by apply sort_desc_sorted.
  by rewrite !of_layer_cons, IH.
Qed.

End SortFacts.

(** ** The cell cache: [generate_cell] *)

Lemma fresh_cell_None (w : World) : cells w !! fresh (dom (cells w)) = None.
Proof. apply not_elem_of_dom, is_fresh. Qed.

(** What [generate_cell] does when the artifact is there and parses. *)
Lemma generate_cell_found X name path w contents layers :
  mag_file path name w = Some contents ->
  parse_layers X contents = Some layers ->
  generate_cell X name path w =
    (Ok (fresh (dom (cells w))),
     with_cells (fun m => <[fresh (dom (cells w)) :=
                   mkCell ClsCell name layers (Some (realpath X path)) (0, 0) 0
                          (cell_extent X layers) []]> m)
       (with_trace (fun t => t ++ [Call_generate_cell name path]) w)).
Proof.
  intros Hfile Hparse.
  unfold generate_cell, bind, emit, modify, get; simpl.
  change (mag_file path name (with_trace _ w)) with (mag_file path name w).
  rewrite Hfile, Hparse. unfold new_Cell, add_path, bind, deref, modify, ret; simpl.
  rewrite lookup_insert_eq. unfold with_cells; simpl.
  by rewrite insert_insert_eq.
Qed.

Lemma generate_cell_missing X name path w :
  mag_file path name w = None ->
  generate_cell X name path w =
    (Raise (FileNotFoundError
              ("Magic-view of cell " +:+ name +:+ " not found in " +:+ path +:+ "/!")),
     with_trace (fun t => t ++ [Call_generate_cell name path]) w).
Proof.
  intros Hfile.
  unfold generate_cell, bind, emit, modify, get; simpl.
  change (mag_file path name (with_trace _ w)) with (mag_file path name w).
  by rewrite Hfile.
Qed.

Lemma generate_cell_unparsed X name path w contents :
  mag_file path name w = Some contents ->
  parse_layers X contents = None ->
  generate_cell X name path w =
    (Raise (ExternalError "MagicParser"),
     with_trace (fun t => t ++ [Call_generate_cell name path]) w).
Proof.
  intros Hfile Hparse.
  unfold generate_cell, bind, emit, modify, get; simpl.
  change (mag_file path name (with_trace _ w)) with (mag_file path name w).
  by rewrite Hfile, Hparse.
Qed.

(** A call of [generate_cell] that returns found the artifact and parsed it. *)
Lemma generate_cell_Ok X name path w cl w' :
  generate_cell X name path w = (Ok cl, w') ->
  exists contents layers,
    mag_file path name w = Some contents /\
    parse_layers X contents = Some layers /\
    cells w !! cl = None /\
    cells w' = <[cl := mkCell ClsCell name layers (Some (realpath X path)) (0, 0) 0
                              (cell_extent X layers) []]> (cells w) /\
    circuits w' = circuits w /\
    devs w' = devs w /\
    trace w' = trace w ++ [Call_generate_cell name path].
Proof.
  intros Hrun.
  destruct (mag_file path name w) as [contents |] eqn:Hfile;
    [| by rewrite (generate_cell_missing X name path w Hfile) in Hrun].
  destruct (parse_layers X contents) as [layers |] eqn:Hparse;
    [| by rewrite (generate_cell_unparsed X name path w contents Hfile Hparse) in Hrun].
  rewrite (generate_cell_found X name path w contents layers Hfile Hparse) in Hrun.
  injection Hrun as <- <-. exists contents, layers.
  repeat split; auto using fresh_cell_None.
Qed.

(** C6. [generate_cell] raises [FileNotFoundError] exactly when the
    directory [path] has no entry [<name>.mag].  When it returns, it has
    submitted nothing to the tool and changed no file: it has only created
    one new [Cell] object, which carries the name, the layers parsed from
    that file and the resolved storage path [realpath path]. *)
Theorem generate_cell_lookup X name path w r w' :
  generate_cell X name path w = (r, w') ->
  ((exists msg, r = Raise (FileNotFoundError msg)) <-> mag_file path name w = None) /\
  (forall cl, r = Ok cl ->
     exists contents layers,
       mag_file path name w = Some contents /\
       parse_layers X contents = Some layers /\
       cells w !! cl = None /\
       cells w' = <[cl := mkCell ClsCell name layers (Some (realpath X path)) (0, 0) 0
                                 (cell_extent X layers) []]> (cells w) /\
       fs w' = fs w /\ tool_cwd w' = tool_cwd w /\
       circuits w' = circuits w /\ devs w' = devs w /\
       trace w' = trace w ++ [Call_generate_cell name path]).
Proof.
  intros Hrun.
  destruct (mag_file path name w) as [contents |] eqn:Hfile.
  - destruct (parse_layers X contents) as [layers |] eqn:Hparse.
    + rewrite (generate_cell_found X name path w contents layers Hfile Hparse) in Hrun.
      injection Hrun as <- <-. split.
      * split; [intros [msg [=]] | intros [=]].
      * intros cl [= <-]. exists contents, layers.
        repeat split; auto using fresh_cell_None.
    + rewrite (generate_cell_unparsed X name path w contents Hfile Hparse) in Hrun.
      injection Hrun as <- <-. split.
      * split; [intros [msg [=]] | intros [=]].
      * intros cl [=].
  - rewrite (generate_cell_missing X name path w Hfile) in Hrun.
    injection Hrun as <- <-. split.
    + split; [reflexivity | eauto].
    + intros cl [=].
Qed.

Lemma generate_cell_lookup_witness :
  let w := Demo.world Demo.unbound_devs ∅ Demo.generated_fs in
  let w' := (generate_cell Demo.X "M1" "Magic/Devices" w).2 in
  generate_cell Demo.X "M1" "Magic/Devices" w = (Ok 0%nat, w') /\
  cells w' = {[ 0%nat := mkCell ClsCell "M1" ["li1 m1"] (Some "/work/Magic/Devices")
                                (0, 0) 0 (4, 4) [] ]} /\
  fs w' = Demo.generated_fs /\
  trace w' = [Call_generate_cell "M1" "Magic/Devices"].
Proof.
  intros w w'.
  assert (Hrun : generate_cell Demo.X "M1" "Magic/Devices" w = (Ok 0%nat, w'))
    by (vm_compute; reflexivity).
  destruct (generate_cell_lookup _ _ _ _ _ _ Hrun) as [_ H].
  destruct (H _ eq_refl) as (contents & layers & Hf & Hp & _ & Hc & Hfs & _ & _ & _ & Ht).
  vm_compute in Hf. injection Hf as <-.
  vm_compute in Hp. injection Hp as <-.
  exact (conj Hrun (conj Hc (conj Hfs Ht))).
Defined.

(** ** Frames of the tool and the file system *)

#[global] Instance same_store_frame : Frame same_store.
Proof.
  split; unfold same_store; [done |].
  intros w1 w2 w3 (-> & -> & ->) (-> & -> & ->). done.
Qed.

#[global] Instance same_devices_frame : Frame same_devices.
Proof.
  split; unfold same_devices; [done |].
  intros w1 w2 w3 (-> & ->) (-> & ->). done.
Qed.

#[global] Instance same_files_frame : Frame same_files.
Proof.
  split; unfold same_files; [done |].
  intros w1 w2 w3 (-> & -> & ->) (-> & -> & ->). done.
Qed.

Lemma preserves_run_lines P m ls :
  (forall w f, P w (with_fs (fun _ => f) w)) -> (forall w, P w w) ->
  preserves P (run_lines m ls).
Proof.
  intros Hfs Hrefl w r w'. unfold run_lines.
  destruct (execute m ls (tool_cwd w) (fs w)); intros [= <- <-]; auto.
Qed.

Lemma preserves_new_Cell P ext name layers :
  (forall w f, P w (with_cells f w)) -> preserves P (new_Cell ext name layers).
Proof. intros H w r w' [= <- <-]. apply H. Qed.

(** A frame proof for straight-line code: split at every bind, and close
    the leaves, which are single updates of the world. *)
Ltac frame_leaf :=
  lazymatch goal with
  | |- preserves _ (emit _) => apply preserves_modify; intros ?
  | |- preserves _ (print _) => apply preserves_modify; intros ?
  | |- preserves _ (modify _) => apply preserves_modify; intros ?
  | |- preserves _ (run_lines _ _) => apply preserves_run_lines; intros
  | |- preserves _ (new_Cell _ _ _) => apply preserves_new_Cell; intros
  end; try (hnf; simpl; done).

Ltac frames := repeat (first [frame_step | frame_leaf | progress eauto with frame nocore]).

Lemma magic_command_same_store m c : preserves same_store (magic_command m c).
Proof. unfold magic_command. frames. Qed.
#[export] Hint Resolve magic_command_same_store : frame.

Lemma makedirs_same_store path : preserves same_store (makedirs path).
Proof. unfold makedirs. frames. Qed.
#[export] Hint Resolve makedirs_same_store : frame.

Lemma rmtree_same_store path : preserves same_store (rmtree path).
Proof. unfold rmtree. frames. Qed.
#[export] Hint Resolve rmtree_same_store : frame.

Lemma ensure_dir_same_store path : preserves same_store (ensure_dir path).
Proof. unfold ensure_dir. frames. Qed.
#[export] Hint Resolve ensure_dir_same_store : frame.

Lemma clear_through_tool_same_store mag path :
  preserves same_store (clear_through_tool mag path).
Proof. unfold clear_through_tool. frames. Qed.
#[export] Hint Resolve clear_through_tool_same_store : frame.

Lemma mag_command_same_store mag c : preserves same_store (mag_command mag c).
Proof. unfold mag_command. frames. Qed.
#[export] Hint Resolve mag_command_same_store : frame.

Lemma method_same_store {A} mag (f : Magic -> Store -> exn + A) :
  preserves same_store (method mag f).
Proof. unfold method. frames. Qed.
#[export] Hint Resolve method_same_store : frame.

(** ** [instantiate_devices]: rebinding the paths of bound cells *)

Ltac bind_inv H :=
  let a := fresh "a" in
  let w := fresh "w" in
  let H1 := fresh H in
  apply bind_Ok in H; destruct H as (a & w & H1 & H).

Lemma rebind_device_Ok p nd w w' :
  rebind_device p nd w = (Ok tt, w') ->
  match owned_Cell w nd with
  | Some cl => exists c, cells w !! cl = Some c /\
                         cell_class c = ClsCell /\
                         w' = with_cells (fun m => <[cl := set_path p c]> m) w
  | None => w' = w
  end.
Proof.
  unfold rebind_device, owned_Cell, owned_object, bind, deref, add_path, modify, ret.
  destruct (devs w !! nd.2) as [dv |]; [| discriminate].
  destruct (dev_cell dv) as [cl |]; [| by intros [= <-]].
  destruct (cells w !! cl) as [c |] eqn:Hc; [| discriminate].
  destruct (cell_class c) eqn:Hcls; [| by intros [= <-]].
  unfold bind, deref. rewrite Hc. intros [= <-]. eauto.
Qed.

Lemma owned_Cell_rebind p cl c w nd :
  cells w !! cl = Some c ->
  owned_Cell (with_cells (fun m => <[cl := set_path p c]> m) w) nd = owned_Cell w nd.
Proof.
  intros Hc. unfold owned_Cell, owned_object; simpl.
  destruct (devs w !! nd.2) as [dv |]; [| done].
  destruct (dev_cell dv) as [l |]; [| done].
  destruct (decide (l = cl)) as [-> | Hne].
  - by rewrite lookup_insert_eq, Hc.
  - by rewrite lookup_insert_ne.
Qed.

Lemma rebound_rebind p cl c w ds l :
  cells w !! cl = Some c ->
  rebound (with_cells (fun m => <[cl := set_path p c]> m) w) ds l = rebound w ds l.
Proof.
  intros Hc. unfold rebound. induction ds as [| nd ds IH]; simpl; [done |].
  by rewrite IH, (owned_Cell_rebind p cl c w nd Hc).
Qed.

Lemma rebind_loop p ds : forall w w',
  for_each ds (rebind_device p) w = (Ok tt, w') ->
  same_devices w w' /\ same_files w w' /\ trace w' = trace w /\
  forall l, cells w' !! l =
            (fun cell => if rebound w ds l then set_path p cell else cell) <$> cells w !! l.
Proof.
  induction ds as [| nd ds IH]; intros w w' Hrun.
  - injection Hrun as <-. repeat split. intros l. simpl. by destruct (cells w !! l).
  - rewrite for_each_cons in Hrun. bind_inv Hrun. destruct a.
    apply rebind_device_Ok in Hrun0. apply IH in Hrun as (Hd & Hf & Ht & Hcells).
    destruct (owned_Cell w nd) as [cl |] eqn:Hown.
    + destruct Hrun0 as (c & Hc & Hcls & ->).
      repeat split; try apply Hd; try apply Hf; [exact Ht |].
      intros l. rewrite Hcells, (rebound_rebind p cl c w ds l Hc). simpl.
      rewrite Hown. destruct (decide (cl = l)) as [-> | Hne].
      * rewrite lookup_insert_eq, Hc, bool_decide_eq_true_2 by done. simpl.
        by destruct (rebound w ds l).
      * rewrite lookup_insert_ne by done.
        rewrite bool_decide_eq_false_2 by congruence. done.
    + subst w0. repeat split; try apply Hd; try apply Hf; [exact Ht |].
      intros l. rewrite Hcells. simpl. rewrite Hown.
      rewrite bool_decide_eq_false_2 by done. done.
Qed.

Lemma instantiate_devices_split X Circuit mag path del_path w :
  instantiate_devices X Circuit mag path del_path w =
  (submit_generation Circuit mag path del_path >>
   let* c := deref circuits Circuit in
   for_each (circ_devices c) (rebind_device (realpath X path))) w.
Proof.
  unfold instantiate_devices, submit_generation, bind.
  destruct (emit _ w) as [[[] | | |] w1]; try reflexivity.
  destruct (method mag gen_devices w1) as [[lines | | |] w2]; try reflexivity.
  unfold get; cbv beta iota.
  destruct ((if path_exists path w2 && del_path then rmtree path else ret tt) w2)
    as [[[] | | |] w4]; try reflexivity.
  destruct (ensure_dir path w4) as [[[] | | |] w5]; reflexivity.
Qed.

Lemma submit_generation_same_store Circuit mag path del_path :
  preserves same_store (submit_generation Circuit mag path del_path).
Proof. unfold submit_generation. frames. Qed.

(** C7, as the code has it.  When [instantiate_devices] returns, every cell
    object that a device of the circuit owns and whose class is exactly
    [Cell] has its path rebound to [realpath path], and nothing else in the
    store has changed: devices without a cell, cells of another class (a
    macro cell) and cells of other circuits are as they were. *)
Theorem instantiate_devices_rebinds X Circuit mag path del_path w w' :
  instantiate_devices X Circuit mag path del_path w = (Ok tt, w') ->
  exists c, circuits w !! Circuit = Some c /\
    same_devices w w' /\
    forall l, cells w' !! l =
      (fun cell => if rebound w (circ_devices c) l
                   then set_path (realpath X path) cell else cell) <$> cells w !! l.
Proof.
  rewrite instantiate_devices_split. intros Hrun.
  bind_inv Hrun. bind_inv Hrun.
  apply submit_generation_same_store in Hrun0 as (Hc0 & Hd0 & Hl0).
  unfold deref in Hrun1. rewrite Hc0 in Hrun1.
  destruct (circuits w !! Circuit) as [c |] eqn:Hc; [| discriminate].
  injection Hrun1 as <- <-.
  apply rebind_loop in Hrun as ((Hc1 & Hd1) & _ & _ & Hcells).
  exists c. split; [done |]. split; [split; congruence |].
  intros l. rewrite Hcells, Hl0.
  assert (Hreb : rebound w0 (circ_devices c) l = rebound w (circ_devices c) l).
  { unfold rebound, owned_Cell, owned_object. by rewrite Hd0, Hl0. }
  by rewrite Hreb.
Qed.

Lemma instantiate_devices_rebinds_witness :
  let w := Demo.world Demo.placed_devs Demo.placed_cells Demo.generated_fs in
  let w' := (instantiate_devices Demo.X Demo.circL (Some Demo.working_tool)
               "Magic/Devices" false w).2 in
  cell_path <$> cells w' !! Demo.cellM1 = Some (Some "/work/Magic/Devices") /\
  cell_path <$> cells w' !! Demo.cellM2 = Some (Some "/work/Magic/Devices") /\
  cells w' !! Demo.cellXL = cells w !! Demo.cellXL.
Proof.
  intros w w'.
  assert (Hrun : instantiate_devices Demo.X Demo.circL (Some Demo.working_tool)
                   "Magic/Devices" false w = (Ok tt, w')) by (vm_compute; reflexivity).
  destruct (instantiate_devices_rebinds _ _ _ _ _ _ _ Hrun) as (c & Hc & _ & Hcells).
  vm_compute in Hc. injection Hc as <-.
  repeat split; rewrite Hcells; vm_compute; reflexivity.
Defined.

(** The macro device XA of the top circuit owns a macro cell; the test
    [type(device.cell)==Cell] skips it and its path stays what it was. *)
Lemma instantiate_devices_skips_macro_cell :
  let w := Demo.world Demo.placed_devs Demo.placed_cells Demo.generated_fs in
  let w' := (instantiate_devices Demo.X Demo.top (Some Demo.working_tool)
               "Magic/Devices" true w).2 in
  instantiate_devices Demo.X Demo.top (Some Demo.working_tool) "Magic/Devices" true w
    = (Ok tt, w') /\
  cell_path <$> cells w' !! Demo.cellXA = Some (Some "old/Placement") /\
  ~ every_owned_cell_rebound Demo.X Demo.top "Magic/Devices" w w'.
Proof.
  intros w w'. split; [vm_compute; reflexivity |]. split; [vm_compute; reflexivity |].
  intros H.
  specialize (H (mkCircuit "top" [("XA", Demo.devXA)] None) ("XA", Demo.devXA) Demo.cellXA).
  assert (Hpath : cell_path <$> cells w' !! Demo.cellXA = Some (Some "old/Placement"))
    by (vm_compute; reflexivity).
  rewrite Hpath in H.
  assert (Hfalse : Some (Some "old/Placement") = Some (Some (realpath Demo.X "Magic/Devices")))
    by (apply H; [vm_compute; reflexivity | apply list_elem_of_here | vm_compute; reflexivity]).
  vm_compute in Hfalse. discriminate Hfalse.
Qed.

(** ** Cleaning through the tool session *)

Lemma substring_0_length s : substring 0 (String.length s) s = s.
Proof. induction s as [| a s IH]; simpl; [done | by rewrite IH]. Qed.

#[global] Instance only_files_frame : Frame only_files.
Proof.
  split; unfold only_files, same_store; [done |].
  intros w1 w2 w3 ((-> & -> & ->) & -> & -> & ->) ((-> & -> & ->) & -> & -> & ->). done.
Qed.

Lemma ensure_dir_only_files path : preserves only_files (ensure_dir path).
Proof. unfold ensure_dir, makedirs. frames. Qed.

Lemma ensure_dir_Ok path w r w' : ensure_dir path w = (r, w') -> r = Ok tt.
Proof.
  unfold ensure_dir, makedirs, bind, get, modify, ret.
  destruct (negb (path_exists path w)); by intros [= <- _].
Qed.

Lemma emit_inv e w r w' :
  emit e w = (r, w') -> r = Ok tt /\ w' = with_trace (fun t => t ++ [e]) w.
Proof. by intros [= <- <-]. Qed.

Lemma get_inv w r w' : get w = (r, w') -> r = Ok w /\ w' = w.
Proof. by intros [= <- <-]. Qed.

Lemma lift_Ok {A} (x : exn + A) w a w' : lift x w = (Ok a, w') -> x = inr a /\ w' = w.
Proof. destruct x; unfold lift, raise, ret; intros [=]; by subst. Qed.

Lemma magic_command_trace m c w r w' :
  magic_command m c w = (r, w') -> trace w' = trace w ++ [Send c].
Proof.
  unfold magic_command, bind, emit, modify, run_lines. simpl.
  destruct c as [s | ls].
  - destruct (Path.starts_with "cd " s); [by intros [= _ <-] |].
    destruct (s =? foreach_delete)%string; [by intros [= _ <-] |].
    simpl. destruct (execute m [s] _ _); by intros [= _ <-].
  - simpl. destruct (execute m ls _ _); by intros [= _ <-].
Qed.

Lemma cd_is_cd d : Path.starts_with "cd " ("cd " +:+ d) = true.
Proof. unfold Path.starts_with. simpl. by destruct d. Qed.

Lemma cd_argument d :
  substring 3 (String.length ("cd " +:+ d) - 3) ("cd " +:+ d) = d.
Proof.
  change (substring 0 (String.length d - 0) d = d).
  by rewrite Nat.sub_0_r, substring_0_length.
Qed.

Lemma magic_command_cd m d w :
  magic_command m (Line ("cd " +:+ d)) w =
    (Ok tt, with_tool_cwd d (with_trace (fun t => t ++ [Send (Line ("cd " +:+ d))]) w)).
Proof.
  unfold magic_command. rewrite cd_is_cd, cd_argument. reflexivity.
Qed.

Lemma magic_command_foreach_delete m w :
  magic_command m (Line foreach_delete) w =
    (Ok tt, with_fs (delete_mag_files (tool_cwd w))
              (with_trace (fun t => t ++ [Send (Line foreach_delete)]) w)).
Proof. reflexivity. Qed.

(** With a tool session, the shared block moves the session to [abspath]
    and deletes there what [*.mag] matches; nothing else changes. *)
Lemma clear_through_tool_Some m path w :
  clear_through_tool (Some m) path w =
    (Ok tt,
     mkWorld (circuits w) (devs w) (cells w)
             (delete_mag_files (absdir w path) (fs w))
             (cwd w) (absdir w path)
             (trace w ++ [Send (Line ("cd " +:+ absdir w path)); Send (Line foreach_delete)])).
Proof.
  unfold clear_through_tool, absdir.
  rewrite (bind_step get _ w w w eq_refl).
  rewrite (bind_step _ _ _ _ _ (magic_command_cd m _ w)).
  rewrite magic_command_foreach_delete.
  unfold with_fs, with_trace, with_tool_cwd; simpl.
  by rewrite <- app_assoc.
Qed.

Lemma clear_through_tool_None path w : clear_through_tool None path w = (Ok tt, w).
Proof. reflexivity. Qed.

Lemma mag_files_delete d (f : FS) : mag_files d (delete_mag_files d f) = ∅.
Proof.
  unfold mag_files, delete_mag_files.
  destruct (f !! d) as [entries |] eqn:Hd.
  - rewrite lookup_insert_eq. apply map_empty. intros k.
    apply map_lookup_filter_None. right. intros v Hkv Hglob.
    apply map_lookup_filter_Some in Hkv as [_ Hno].
    simpl in *. congruence.
  - by rewrite Hd.
Qed.

(** Directories other than [d] keep their entries, and [d] keeps the entries
    that the pattern does not match. *)
Lemma delete_mag_files_other d d' (f : FS) :
  d <> d' -> delete_mag_files d f !! d' = f !! d'.
Proof.
  intros Hne. unfold delete_mag_files.
  destruct (f !! d); [by rewrite lookup_insert_ne | done].
Qed.

(** ** [instantiate_circuit] *)

Lemma calls_app t1 t2 : calls (t1 ++ t2) = calls t1 ++ calls t2.
Proof. apply filter_app. Qed.

Lemma submit_generation_trace Circuit m path w w' :
  submit_generation Circuit (Some m) path false w = (Ok tt, w') ->
  exists lines,
    trace w' = trace w ++ [Call_instantiate_devices Circuit path false; Send (Batch lines)].
Proof.
  unfold submit_generation. intros Hrun.
  apply bind_Ok in Hrun as ([] & w1 & H1 & Hrun). apply emit_inv in H1 as [_ ->].
  apply bind_Ok in Hrun as (lines & w2 & H2 & Hrun).
  unfold method in H2. apply bind_Ok in H2 as (? & ? & Hg & H2).
  apply get_inv in Hg as [[= ->] ->]. apply lift_Ok in H2 as [_ ->].
  apply bind_Ok in Hrun as (? & w3 & Hg & Hrun). apply get_inv in Hg as [[= ->] ->].
  rewrite andb_false_r in Hrun.
  apply bind_Ok in Hrun as ([] & w4 & H4 & Hrun). injection H4 as <-.
  apply bind_Ok in Hrun as ([] & w5 & H5 & Hrun).
  apply ensure_dir_only_files in H5 as (_ & _ & _ & Ht).
  apply magic_command_trace in Hrun. exists lines.
  rewrite Hrun, Ht. simpl. by rewrite <- app_assoc.
Qed.

Lemma instantiate_devices_trace X Circuit m path w w' :
  instantiate_devices X Circuit (Some m) path false w = (Ok tt, w') ->
  exists lines,
    trace w' = trace w ++ [Call_instantiate_devices Circuit path false; Send (Batch lines)].
Proof.
  rewrite instantiate_devices_split. intros Hrun.
  apply bind_Ok in Hrun as ([] & w1 & H1 & Hrun).
  apply submit_generation_trace in H1 as [lines Ht].
  apply bind_Ok in Hrun as (c & w2 & H2 & Hrun). unfold deref in H2.
  destruct (circuits w1 !! Circuit); [| discriminate]. injection H2 as <- <-.
  apply rebind_loop in Hrun as (_ & _ & Ht' & _).
  exists lines. by rewrite Ht', Ht.
Qed.

Lemma instantiate_layers_trace X m path topology : forall w w',
  instantiate_layers X (Some m) path topology w = (Ok tt, w') ->
  exists rest,
    trace w' = trace w ++ rest /\
    calls rest = map (fun tc => Call_instantiate_devices tc.2 path false) topology /\
    Forall no_cleaning rest.
Proof.
  unfold instantiate_layers.
  induction topology as [| tc topology IH]; intros w w' Hrun.
  - injection Hrun as <-. exists []. by rewrite app_nil_r.
  - rewrite for_each_cons in Hrun.
    apply bind_Ok in Hrun as ([] & w2 & H2 & Hrun).
    apply bind_Ok in H2 as ([] & w1 & H1 & H2). apply emit_inv in H1 as [_ ->].
    apply instantiate_devices_trace in H2 as [lines Ht].
    apply IH in Hrun as (rest & Ht' & Hcalls & Hquiet).
    exists ([Printed "Diagnostic:  instantiating devices.";
             Call_instantiate_devices tc.2 path false; Send (Batch lines)] ++ rest).
    split; [| split].
    + rewrite Ht', Ht. simpl. by rewrite <- !app_assoc.
    + rewrite calls_app, Hcalls. reflexivity.
    + apply Forall_app. split; [| exact Hquiet]. by repeat constructor.
Qed.

(** C5. With a tool session, a run of [instantiate_circuit] that returns
    has computed the top-down topology and sorted it ascending by layer;
    before the loop it has sent the tool to [abspath] and deleted the [.mag]
    files there, once, after which no such file is left; the loop then calls
    [instantiate_devices] once per entry of the sorted topology, in order,
    with [del_path] false, and during the loop nothing is cleaned again:
    no [shutil.rmtree], no further command line to the tool. *)
Theorem instantiate_circuit_cleans_once X Circuit m path w w' :
  instantiate_circuit X Circuit (Some m) path w = (Ok tt, w') ->
  exists topology w1 rest,
    get_top_down_topology X (circuits w) (devs w) Circuit = inr topology /\
    StronglySorted layer_le (Topology.sort_asc topology) /\
    Permutation (Topology.sort_asc topology) topology /\
    trace w1 = trace w ++ [Call_instantiate_circuit Circuit path;
                           Send (Line ("cd " +:+ absdir w path));
                           Send (Line foreach_delete)] /\
    mag_files (absdir w path) (fs w1) = ∅ /\
    instantiate_layers X (Some m) path (Topology.sort_asc topology) w1 = (Ok tt, w') /\
    trace w' = trace w1 ++ rest /\
    calls rest = map (fun tc => Call_instantiate_devices tc.2 path false)
                     (Topology.sort_asc topology) /\
    Forall no_cleaning rest.
Proof.
  unfold instantiate_circuit. intros Hrun.
  apply bind_Ok in Hrun as ([] & w0 & H0 & Hrun). apply emit_inv in H0 as [_ ->].
  apply bind_Ok in Hrun as (? & ? & Hg & Hrun). apply get_inv in Hg as [[= ->] ->].
  apply bind_Ok in Hrun as (topology & ? & Htop & Hrun).
  apply lift_Ok in Htop as [Htop ->]. simpl in Htop.
  apply bind_Ok in Hrun as ([] & w2 & H2 & Hrun).
  apply ensure_dir_only_files in H2 as (_ & Hcwd & _ & Ht).
  apply bind_Ok in Hrun as ([] & w3 & H3 & Hrun).
  rewrite clear_through_tool_Some in H3. injection H3 as <-.
  fold (instantiate_layers X (Some m) path (Topology.sort_asc topology)) in Hrun.
  destruct (instantiate_layers_trace _ _ _ _ _ _ Hrun) as (rest & Ht' & Hcalls & Hquiet).
  assert (Habs : absdir w2 path = absdir w path) by (unfold absdir; by rewrite Hcwd).
  eexists topology, _, rest.
  split; [exact Htop |]. split; [apply sort_asc_sorted |]. split; [apply sort_asc_perm |].
  split; [| split; [| split; [exact Hrun | split; [exact Ht' | by split]]]].
  - simpl. rewrite Ht, Habs. simpl. by rewrite <- app_assoc.
  - simpl. rewrite Habs. apply mag_files_delete.
Qed.

Lemma instantiate_circuit_cleans_once_witness :
  let w := Demo.world Demo.unbound_devs ∅ Demo.generated_fs in
  let w' := (instantiate_circuit Demo.X Demo.top (Some Demo.working_tool)
               "Magic/Devices" w).2 in
  calls (trace w') =
    [Call_instantiate_circuit Demo.top "Magic/Devices";
     Call_instantiate_devices Demo.top "Magic/Devices" false;
     Call_instantiate_devices Demo.circA "Magic/Devices" false;
     Call_instantiate_devices Demo.circL "Magic/Devices" false] /\
  Forall no_cleaning (drop 3 (trace w')).
Proof.
  intros w w'.
  assert (Hrun : instantiate_circuit Demo.X Demo.top (Some Demo.working_tool)
                   "Magic/Devices" w = (Ok tt, w')) by (vm_compute; reflexivity).
  destruct (instantiate_circuit_cleans_once _ _ _ _ _ _ Hrun)
    as (topology & w1 & rest & Htop & _ & _ & Ht1 & _ & _ & Ht' & Hcalls & Hquiet).
  vm_compute in Htop. injection Htop as <-.
  rewrite Ht', Ht1. split.
  - rewrite calls_app, Hcalls. reflexivity.
  - exact Hquiet.
Defined.

(** ** [place_circuit] *)

Lemma method_Some {A} m (f : Magic -> Store -> exn + A) w a :
  f m (store_of w) = inr a -> method (Some m) f w = (Ok a, w).
Proof. unfold method, bind, get. simpl. by intros ->. Qed.

Lemma method_Ok {A} mag (f : Magic -> Store -> exn + A) w a w' :
  method mag f w = (Ok a, w') ->
  exists m, mag = Some m /\ f m (store_of w) = inr a /\ w' = w.
Proof.
  destruct mag as [m |]; [| discriminate]. unfold method, bind, get. simpl.
  destruct (f m (store_of w)) eqn:Hf; [discriminate |]. intros [= <- <-]. by exists m.
Qed.

Lemma ensure_dir_eq path w : ensure_dir path w = (Ok tt, with_dir path w).
Proof.
  unfold ensure_dir, with_dir, bind, get, makedirs, modify, ret.
  by destruct (path_exists path w).
Qed.

Lemma place_circuit_eq name Circuit m path debug clean_path w lines :
  place_circuit_lines m name "" (store_of w) = inr lines ->
  place_circuit name Circuit (Some m) path debug clean_path w =
    magic_command m (Batch lines)
      (cleared_for_placement name Circuit path debug clean_path w).
Proof.
  intros Hlines. unfold place_circuit.
  rewrite (bind_step (emit _) _ w tt _ eq_refl).
  rewrite (bind_step _ _ _ _ _
             (method_Some m (fun m => place_circuit_lines m name "")
                (with_trace
                   (fun t => t ++ [Call_place_circuit name Circuit path debug clean_path]) w)
                lines Hlines)).
  rewrite (bind_step _ _ _ _ _ (ensure_dir_eq path _)).
  rewrite (bind_step _ _ _ _ _ (clear_through_tool_Some m path _)).
  unfold mag_command, cleared_for_placement, with_dir, absdir, path_exists, with_fs,
    with_trace; simpl.
  destruct (bool_decide _); simpl; by rewrite <- app_assoc.
Qed.

(** ** Frames of the cell methods *)

#[global] Instance cells_outside_frame T : Frame (cells_outside T).
Proof.
  split; unfold cells_outside; [done |].
  intros w1 w2 w3 H12 H23 l Hl. by rewrite H23, H12.
Qed.

Lemma preserves_for_each_in {A} P `{!Frame P} (l : list A) (body : A -> M unit) :
  (forall x, x ∈ l -> preserves P (body x)) -> preserves P (for_each l body).
Proof.
  induction l as [| x l IH]; intros Hb; simpl.
  - by apply preserves_ret.
  - apply preserves_bind; [done | apply Hb; left |].
    intros _. apply IH. intros y Hy. apply Hb. by right.
Qed.

Lemma insert_cell_outside (T : loc -> Prop) cl c w :
  T cl -> cells_outside T w (with_cells (fun m => <[cl := c]> m) w).
Proof.
  intros HT l Hl. simpl. apply lookup_insert_ne. intros ->. done.
Qed.

Lemma add_path_outside (T : loc -> Prop) cl p :
  T cl -> preserves (cells_outside T) (add_path cl p).
Proof. intros HT. unfold add_path. frames. by apply insert_cell_outside. Qed.

Lemma move_center_outside (T : loc -> Prop) cl p :
  T cl -> preserves (cells_outside T) (move_center cl p).
Proof. intros HT. unfold move_center. frames. by apply insert_cell_outside. Qed.

Lemma rotate_center_outside (T : loc -> Prop) cl a :
  T cl -> preserves (cells_outside T) (rotate_center cl a).
Proof. intros HT. unfold rotate_center. frames. by apply insert_cell_outside. Qed.

Lemma shift_cell_outside (T : loc -> Prop) d cl :
  T cl -> preserves (cells_outside T) (shift_cell d cl).
Proof. intros HT. unfold shift_cell. frames. by apply insert_cell_outside. Qed.

Lemma move_cells_to_bound_outside (T : loc -> Prop) cl w r w' :
  (forall c k, cells w !! cl = Some c -> k ∈ cell_children c -> T k) ->
  move_cells_to_bound cl w = (r, w') -> cells_outside T w w'.
Proof.
  intros HT. unfold move_cells_to_bound.
  rewrite (bind_step (emit _) _ w tt _ eq_refl).
  unfold bind at 1. unfold deref at 1. simpl.
  destruct (cells w !! cl) as [c |] eqn:Hc.
  - enough (Hp : preserves (cells_outside T)
             (let* kids := deref_all (cell_children c) in
              match joint_lower_left kids with
              | Some b => for_each (cell_children c) (shift_cell (- b.1, - b.2))
              | None => ret ()
              end)).
    { intros Hrun. apply Hp in Hrun. intros l Hl. by rewrite (Hrun l Hl). }
    apply preserves_bind; [exact _ | apply preserves_deref_all; exact _ |].
    intros kids. destruct (joint_lower_left kids) as [b |].
    + apply preserves_for_each_in; [exact _ |].
      intros k Hk. apply shift_cell_outside. by eapply HT.
    + apply preserves_ret; exact _.
  - intros [= _ <-]. done.
Qed.

(** The methods of a cell touch neither circuits nor devices nor files. *)
Lemma add_path_same_devices cl p : preserves same_devices (add_path cl p).
Proof. unfold add_path. frames. Qed.
Lemma move_center_same_devices cl p : preserves same_devices (move_center cl p).
Proof. unfold move_center. frames. Qed.
Lemma rotate_center_same_devices cl a : preserves same_devices (rotate_center cl a).
Proof. unfold rotate_center. frames. Qed.
Lemma shift_cell_same_devices d cl : preserves same_devices (shift_cell d cl).
Proof. unfold shift_cell. frames. Qed.
#[export] Hint Resolve add_path_same_devices move_center_same_devices
  rotate_center_same_devices shift_cell_same_devices : frame.
Lemma move_cells_to_bound_same_devices cl : preserves same_devices (move_cells_to_bound cl).
Proof. unfold move_cells_to_bound. frames. Qed.
#[export] Hint Resolve move_cells_to_bound_same_devices : frame.

Lemma add_path_same_files cl p : preserves same_files (add_path cl p).
Proof. unfold add_path. frames. Qed.
Lemma move_center_same_files cl p : preserves same_files (move_center cl p).
Proof. unfold move_center. frames. Qed.
Lemma rotate_center_same_files cl a : preserves same_files (rotate_center cl a).
Proof. unfold rotate_center. frames. Qed.
Lemma shift_cell_same_files d cl : preserves same_files (shift_cell d cl).
Proof. unfold shift_cell. frames. Qed.
#[export] Hint Resolve add_path_same_files move_center_same_files
  rotate_center_same_files shift_cell_same_files : frame.
Lemma move_cells_to_bound_same_files cl : preserves same_files (move_cells_to_bound cl).
Proof. unfold move_cells_to_bound. frames. Qed.
#[export] Hint Resolve move_cells_to_bound_same_files : frame.

Lemma place_circuit_same_store name c mag path debug clean_path :
  preserves same_store (place_circuit name c mag path debug clean_path).
Proof. unfold place_circuit. frames. Qed.

(** ** The loop body of [place_circuit_hierachical], step by step *)

Lemma deref_Ok {A} (sel : World -> gmap loc A) l w a w' :
  deref sel l w = (Ok a, w') -> sel w !! l = Some a /\ w' = w.
Proof. unfold deref. destruct (sel w !! l); intros [=]; by subst. Qed.

Lemma not_None_Ok {A} (o : option A) w a w' :
  not_None o w = (Ok a, w') -> o = Some a /\ w' = w.
Proof. destruct o; intros [=]; by subst. Qed.

Lemma place_entry_composite X name mag path tc w w' c d :
  circuits w !! tc.2 = Some c -> circ_sub_device c = Some d ->
  place_entry X name mag path tc w = (Ok tt, w') ->
  inhabited (CompositeRun X mag path tc.2 w w').
Proof.
  intros Hc Hd Hrun. unfold place_entry in Hrun.
  apply bind_Ok in Hrun as (c0 & ? & H0 & Hrun).
  apply deref_Ok in H0 as [H0 ->]. rewrite Hc in H0. injection H0 as <-.
  rewrite Hd in Hrun.
  apply bind_Ok in Hrun as (circ_c & ws & Hcopy & Hrun).
  injection Hcopy as Hcc Hws.
  apply bind_Ok in Hrun as (cc & ? & H1 & Hrun). apply deref_Ok in H1 as [H1 ->].
  apply bind_Ok in Hrun as (sub_device & ? & H2 & Hrun). apply not_None_Ok in H2 as [H2 ->].
  apply bind_Ok in Hrun as (sd & ? & H3 & Hrun). apply deref_Ok in H3 as [H3 ->].
  apply bind_Ok in Hrun as (macro_cell & ? & H4 & Hrun). apply not_None_Ok in H4 as [H4 ->].
  apply bind_Ok in Hrun as ([] & w1 & H5 & Hrun).
  apply bind_Ok in Hrun as (mc & ? & H6 & Hrun). apply deref_Ok in H6 as [H6 ->].
  apply bind_Ok in Hrun as ([] & w2 & H7 & Hrun).
  apply bind_Ok in Hrun as ([] & w3 & H8 & Hrun).
  apply bind_Ok in Hrun as (sd' & ? & H9 & Hrun). apply deref_Ok in H9 as [H9 ->].
  apply bind_Ok in Hrun as ([] & w4 & H10 & Hrun).
  apply bind_Ok in Hrun as (c' & ? & H11 & Hrun). apply deref_Ok in H11 as [H11 ->].
  apply bind_Ok in Hrun as (d' & ? & H12 & Hrun). apply not_None_Ok in H12 as [H12 ->].
  apply bind_Ok in Hrun as (dv & ? & H13 & Hrun). apply deref_Ok in H13 as [H13 ->].
  apply bind_Ok in Hrun as (cl & ? & H14 & Hrun). apply not_None_Ok in H14 as [H14 ->].
  constructor.
  refine (mkCompositeRun X mag path tc.2 w w' ws circ_c sub_device macro_cell
            w1 w2 w3 w4 (cell_rotation mc) (dev_name sd') cl _ _ _ H5 _ H7 H8 _ H10 _ Hrun).
  - rewrite <- Hcc, <- Hws. by destruct (deepcopy X w tc.2).
  - by rewrite H1, <- H2.
  - by rewrite H3, <- H4.
  - by rewrite H6.
  - by rewrite H9.
  - by exists c', d', dv.
Qed.

Lemma place_entry_leaf X name mag path tc w c :
  circuits w !! tc.2 = Some c -> circ_sub_device c = None ->
  place_entry X name mag path tc w = place_circuit name tc.2 mag path false false w.
Proof.
  intros Hc Hd. unfold place_entry, bind, deref. by rewrite Hc, Hd.
Qed.

(** ** Every placement clears the directory first *)

Lemma place_circuit_Ok name c mag path debug clean_path w w' :
  place_circuit name c mag path debug clean_path w = (Ok tt, w') ->
  exists m lines f1,
    mag = Some m /\
    mag_files (absdir w path) f1 = ∅ /\
    execute m lines (absdir w path) f1 = inr (fs w') /\
    cwd w' = cwd w.
Proof.
  intros Hrun. pose proof Hrun as Hrun'. unfold place_circuit in Hrun'.
  apply bind_Ok in Hrun' as ([] & w0 & H0 & Hrun'). apply emit_inv in H0 as [_ ->].
  apply bind_Ok in Hrun' as (lines & ? & H1 & _).
  apply method_Ok in H1 as (m & -> & Hlines & _).
  change (place_circuit_lines m name "" (store_of w) = inr lines) in Hlines.
  rewrite (place_circuit_eq name c m path debug clean_path w lines Hlines) in Hrun.
  unfold magic_command, bind, emit, modify, run_lines in Hrun. simpl in Hrun.
  destruct (execute m lines (absdir w path) _) as [e | f] eqn:Hexec; [discriminate |].
  injection Hrun as <-.
  exists m, lines, (delete_mag_files (absdir w path) (fs (with_dir path w))).
  repeat split; [apply mag_files_delete | exact Hexec].
Qed.

Lemma place_entry_clears X name mag path tc w w' :
  deepcopy_keeps_files X ->
  place_entry X name mag path tc w = (Ok tt, w') ->
  exists m lines f1,
    mag = Some m /\
    mag_files (absdir w path) f1 = ∅ /\
    execute m lines (absdir w path) f1 = inr (fs w') /\
    cwd w' = cwd w.
Proof.
  intros Hkeep Hrun. pose proof Hrun as Hrun'. unfold place_entry in Hrun'.
  apply bind_Ok in Hrun' as (c & ? & H0 & _). apply deref_Ok in H0 as [Hc _].
  destruct (circ_sub_device c) as [d |] eqn:Hd.
  - destruct (place_entry_composite X name mag path tc w w' c d Hc Hd Hrun) as [R].
    pose proof (Hkeep w tc.2) as Hs. rewrite (cr_deepcopy _ _ _ _ _ _ R) in Hs. simpl in Hs.
    pose proof (move_center_same_files _ _ _ _ _ (cr_move _ _ _ _ _ _ R)) as H1.
    pose proof (rotate_center_same_files _ _ _ _ _ (cr_rotate _ _ _ _ _ _ R)) as H2.
    pose proof (move_cells_to_bound_same_files _ _ _ _ (cr_bound _ _ _ _ _ _ R)) as H3.
    pose proof (add_path_same_files _ _ _ _ _ (cr_rebind _ _ _ _ _ _ R)) as H4.
    destruct (place_circuit_Ok _ _ _ _ _ _ _ _ (cr_place _ _ _ _ _ _ R))
      as (m & lines & f1 & -> & Hclean & Hexec & Hcwd).
    destruct Hs as (_ & Hs & _), H1 as (_ & H1 & _), H2 as (_ & H2 & _),
      H3 as (_ & H3 & _), H4 as (H4f & H4 & _).
    assert (Habs : absdir (cr_bounded _ _ _ _ _ _ R) path = absdir w path)
      by (unfold absdir; congruence).
    rewrite Habs in Hclean, Hexec.
    exists m, lines, f1. rewrite H4f. repeat split; auto. congruence.
  - rewrite (place_entry_leaf X name mag path tc w c Hc Hd) in Hrun.
    by apply place_circuit_Ok in Hrun.
Qed.

Lemma for_each_split {A} (pre : list A) x post (body : A -> M unit) w w' :
  for_each (pre ++ x :: post) body w = (Ok tt, w') ->
  exists wa wb,
    for_each pre body w = (Ok tt, wa) /\ body x wa = (Ok tt, wb) /\
    for_each post body wb = (Ok tt, w').
Proof.
  rewrite for_each_app. intros Hrun.
  apply bind_Ok in Hrun as ([] & wa & Hpre & Hrun). rewrite for_each_cons in Hrun.
  apply bind_Ok in Hrun as ([] & wb & Hx & Hrun). by exists wa, wb.
Qed.

Lemma for_each_Ok_cwd {A} (l : list A) (body : A -> M unit) :
  (forall x w w', body x w = (Ok tt, w') -> cwd w' = cwd w) ->
  forall w w', for_each l body w = (Ok tt, w') -> cwd w' = cwd w.
Proof.
  intros Hb. induction l as [| x l IH]; intros w w' Hrun.
  - by injection Hrun as <-.
  - rewrite for_each_cons in Hrun. apply bind_Ok in Hrun as ([] & w1 & H1 & Hrun).
    rewrite (IH _ _ Hrun). eauto.
Qed.

(** The world in which the loop of [place_circuit_hierachical] starts. *)
Lemma place_circuit_hierachical_loop X name circuit mag path clean_path w w' :
  place_circuit_hierachical X name circuit mag path clean_path w = (Ok tt, w') ->
  exists topology w0,
    get_bottom_up_topology X (circuits w) (devs w) circuit = inr topology /\
    same_store w w0 /\ cwd w0 = cwd w /\
    for_each (Topology.sort_desc topology) (place_entry X name mag path) w0 = (Ok tt, w').
Proof.
  unfold place_circuit_hierachical. intros Hrun.
  apply bind_Ok in Hrun as ([] & ? & H0 & Hrun). apply emit_inv in H0 as [_ ->].
  apply bind_Ok in Hrun as (? & ? & Hg & Hrun). apply get_inv in Hg as [[= ->] ->].
  apply bind_Ok in Hrun as ([] & w1 & H1 & Hrun).
  assert (Hw1 : same_store w w1 /\ cwd w1 = cwd w).
  { destruct (path_exists path _ && clean_path); by injection H1 as <-. }
  destruct Hw1 as [Hs1 Hc1].
  apply bind_Ok in Hrun as ([] & w2 & H2 & Hrun).
  apply ensure_dir_only_files in H2 as (Hs2 & Hc2 & _).
  apply bind_Ok in Hrun as (? & ? & Hg & Hrun). apply get_inv in Hg as [[= ->] ->].
  apply bind_Ok in Hrun as (topology & ? & Htop & Hrun).
  apply lift_Ok in Htop as [Htop ->].
  assert (Hs : same_store w w2) by (eapply frame_trans; eauto).
  destruct Hs as (Hsc & Hsd & Hsl).
  rewrite Hsc, Hsd in Htop.
  exists topology, w2. repeat split; auto. congruence.
Qed.

(** C2. Whatever [clean_path] (and [debug]) are, [place_circuit] sends the
    tool to [abspath] and deletes the [.mag] files there before it submits
    the placement lines: the lines run on a directory that holds no [.mag]
    file, and the outcome, the files and the objects are the same for every
    value of [clean_path].  In [place_circuit_hierachical], which passes
    [clean_path=False], every entry of the sorted topology is therefore
    placed into a directory from which the [.mag] files of the entries
    placed before it have just been deleted. *)
Theorem place_circuit_clears_regardless name Circuit m path debug clean_path w lines :
  place_circuit_lines m name "" (store_of w) = inr lines ->
  let w1 := cleared_for_placement name Circuit path debug clean_path w in
  (place_circuit name Circuit (Some m) path debug clean_path w
     = magic_command m (Batch lines) w1 /\
   mag_files (absdir w path) (fs w1) = ∅ /\
   forall clean_path',
     let r := place_circuit name Circuit (Some m) path debug clean_path w in
     let r' := place_circuit name Circuit (Some m) path debug clean_path' w in
     r.1 = r'.1 /\ fs r.2 = fs r'.2 /\ store_of r.2 = store_of r'.2 /\
     tool_cwd r.2 = tool_cwd r'.2) /\
  (forall X hname circuit hclean hw hw' topology pre tc post,
     deepcopy_keeps_files X ->
     place_circuit_hierachical X hname circuit (Some m) path hclean hw = (Ok tt, hw') ->
     get_bottom_up_topology X (circuits hw) (devs hw) circuit = inr topology ->
     Topology.sort_desc topology = pre ++ tc :: post ->
     exists w0 wa wb lines' f1,
       for_each pre (place_entry X hname (Some m) path) w0 = (Ok tt, wa) /\
       place_entry X hname (Some m) path tc wa = (Ok tt, wb) /\
       mag_files (absdir hw path) f1 = ∅ /\
       execute m lines' (absdir hw path) f1 = inr (fs wb) /\
       for_each post (place_entry X hname (Some m) path) wb = (Ok tt, hw')).
Proof.
  intros Hlines w1. split; [split; [| split] |].
  - by apply place_circuit_eq.
  - apply mag_files_delete.
  - intros clean_path' r r'. subst r r'.
    rewrite !(place_circuit_eq name Circuit m path debug _ w lines Hlines).
    unfold magic_command, bind, emit, modify, run_lines. simpl.
    by destruct (execute m lines (absdir w path) _).
  - intros X hname circuit hclean hw hw' topology pre tc post Hkeep Hrun Htop Hsplit.
    apply place_circuit_hierachical_loop in Hrun as (topology' & w0 & Htop' & _ & Hcwd0 & Hrun).
    rewrite Htop in Htop'. injection Htop' as <-. rewrite Hsplit in Hrun.
    apply for_each_split in Hrun as (wa & wb & Hpre & Htc & Hpost).
    assert (Hcwda : cwd wa = cwd hw).
    { rewrite <- Hcwd0. eapply for_each_Ok_cwd; [| exact Hpre].
      intros x wx wx' Hx. by apply (place_entry_clears X) in Hx as (_ & _ & _ & _ & _ & _ & ?). }
    destruct (place_entry_clears X _ _ _ _ _ _ Hkeep Htc)
      as (m' & lines' & f1 & [= <-] & Hclean & Hexec & _).
    assert (Habs : absdir wa path = absdir hw path) by (unfold absdir; congruence).
    rewrite Habs in Hclean, Hexec. by exists w0, wa, wb, lines', f1.
Qed.

Lemma demo_deepcopy_keeps_files : deepcopy_keeps_files Demo.X.
Proof. intros w c. by repeat split. Qed.

Lemma place_circuit_clears_regardless_witness :
  let stale : FS := {[ Demo.placement_dir := {[ "old.mag" := "x"; "notes.txt" := "y" ]} ]} in
  let w := Demo.world Demo.placed_devs Demo.placed_cells stale in
  let w' := (place_circuit "top" Demo.top (Some Demo.working_tool)
               "Magic/Placement" false false w).2 in
  fs w' = {[ Demo.placement_dir :=
               {[ "M1.mag" := "li1"; "M2.mag" := "li1"; "notes.txt" := "y" ]} ]} /\
  mag_files Demo.placement_dir
    (fs (cleared_for_placement "top" Demo.top "Magic/Placement" false false w)) = ∅ /\
  exists wa wb lines' f1,
    place_entry Demo.X "top" (Some Demo.working_tool) "Magic/Placement" (1, Demo.circA) wa
      = (Ok tt, wb) /\
    mag_files Demo.placement_dir f1 = ∅ /\
    execute Demo.working_tool lines' Demo.placement_dir f1 = inr (fs wb).
Proof.
  intros stale w w'.
  destruct (place_circuit_clears_regardless "top" Demo.top Demo.working_tool
              "Magic/Placement" false false w ["place top"] eq_refl)
    as [(Heq & Hclean & _) Hloop].
  split; [| split].
  - subst w'. rewrite Heq. compute_done.
  - exact Hclean.
  - set (r := place_circuit_hierachical Demo.X "top" Demo.top (Some Demo.working_tool)
                "Magic/Placement" true w).
    assert (Hrun : place_circuit_hierachical Demo.X "top" Demo.top (Some Demo.working_tool)
                     "Magic/Placement" true w = (Ok tt, r.2))
      by (vm_compute; exact eq_refl).
    assert (Htop : get_bottom_up_topology Demo.X (circuits w) (devs w) Demo.top
                   = inr [(2, Demo.top); (1, Demo.circA); (0, Demo.circL)])
      by (vm_compute; exact eq_refl).
    destruct (Hloop Demo.X "top" Demo.top true w _ _
                [(2, Demo.top)] (1, Demo.circA) [(0, Demo.circL)]
                demo_deepcopy_keeps_files Hrun Htop eq_refl)
      as (w0 & wa & wb & lines' & f1 & _ & Htc & Hclean' & Hexec & _).
    exists wa, wb, lines', f1. split; [exact Htc |].
    change (absdir w "Magic/Placement") with Demo.placement_dir in *.
    by split.
Defined.

(** ** The bind pass of [add_cells] *)

Lemma generate_cell_same_files X name path : preserves same_files (generate_cell X name path).
Proof. unfold generate_cell. frames. Qed.

Lemma bind_invariant_refl w : bind_invariant w w.
Proof. by repeat split. Qed.

Lemma mag_file_same_files path name w w' :
  same_files w w' -> mag_file path name w' = mag_file path name w.
Proof. intros (Hf & Hc & _). unfold mag_file, absdir. by rewrite Hf, Hc. Qed.

Lemma bind_device_step X path w0 work nd w w' :
  bind_invariant w0 w ->
  nd ∈ work ->
  bind_device X path nd w = (Ok tt, w') ->
  bind_invariant w0 w' /\
  trace w' = trace w ++ (if is_primitive w0 nd then [Call_generate_cell nd.1 path] else []) /\
  (is_primitive w0 nd = true -> bound_to_lookup X path w0 work nd.2 w') /\
  (forall d, bound_to_lookup X path w0 work d w -> bound_to_lookup X path w0 work d w').
Proof.
  intros (Hcirc & Hfiles & Hcls & Hmacro & Hold) Hin Hrun.
  unfold bind_device in Hrun.
  apply bind_Ok in Hrun as (dv & ? & Hd & Hrun). apply deref_Ok in Hd as [Hd ->].
  assert (Hprim : is_primitive w0 nd =
                  match dev_class dv with SubDevice => false | Primitive => true end).
  { unfold is_primitive. specialize (Hcls nd.2). rewrite Hd in Hcls. simpl in Hcls.
    destruct (devs w0 !! nd.2) as [dv0 |]; [| discriminate].
    injection Hcls as ->. done. }
  destruct (dev_class dv) eqn:Hclass.
  - (* a primitive device *)
    apply bind_Ok in Hrun as (cl & w1 & Hgen & Hset).
    destruct (generate_cell_Ok X nd.1 path w cl w1 Hgen)
      as (contents & layers & Hfile & Hparse & Hfresh & Hcells & Hc1 & Hd1 & Ht1).
    pose proof (generate_cell_same_files _ _ _ _ _ _ Hgen) as (Hfs & _ & Htc).
    assert (Hcwd1 : cwd w1 = cwd w) by (by apply generate_cell_same_files in Hgen as (_ & ? & _)).
    unfold set_cell in Hset.
    apply bind_Ok in Hset as (dv' & ? & Hd' & Hset). apply deref_Ok in Hd' as [Hd' ->].
    rewrite Hd1, Hd in Hd'. injection Hd' as <-. injection Hset as <-.
    rewrite (mag_file_same_files path nd.1 w0 w Hfiles) in Hfile.
    set (good := mkCell ClsCell nd.1 layers (Some (realpath X path)) (0, 0) 0
                        (cell_extent X layers) []) in *.
    assert (Hgood : looked_up X path w0 nd.1 good) by (by exists contents, layers).
    rewrite Hprim. split; [| split; [| split]].
    + destruct Hfiles as (Hf0 & Hc0 & Ht0). repeat split; simpl.
      * congruence.
      * congruence.
      * congruence.
      * congruence.
      * intros d. rewrite Hd1. destruct (decide (d = nd.2)) as [-> | Hne].
        -- rewrite lookup_insert_eq, <- Hcls, Hd. simpl. by rewrite Hclass.
        -- by rewrite lookup_insert_ne.
      * intros d dv0 Hd0 Hsub. rewrite Hd1. destruct (decide (d = nd.2)) as [-> | Hne].
        -- specialize (Hcls nd.2). rewrite Hd, Hd0 in Hcls. simpl in Hcls. congruence.
        -- rewrite lookup_insert_ne by done. eauto.
      * intros l c Hl. rewrite Hcells. rewrite lookup_insert_ne; [eauto |].
        intros ->. apply Hold in Hl. congruence.
    + simpl. exact Ht1.
    + intros _. exists (mkDevice (dev_name dv) (dev_class dv) (dev_circuit dv) (Some cl)), cl, good.
      simpl. rewrite Hd1, Hcells, !lookup_insert_eq.
      change (cell_name good) with nd.1. rewrite <- surjective_pairing. done.
    + intros d (dvd & cld & cd & Hdd & Hcd & Hcl & Hname & Hlook).
      destruct (decide (d = nd.2)) as [-> | Hne].
      * exists (mkDevice (dev_name dv) (dev_class dv) (dev_circuit dv) (Some cl)), cl, good.
        simpl. rewrite Hd1, Hcells, !lookup_insert_eq.
        change (cell_name good) with nd.1. rewrite <- surjective_pairing. done.
      * exists dvd, cld, cd. simpl. rewrite Hd1, Hcells.
        rewrite lookup_insert_ne by done. rewrite lookup_insert_ne by congruence. done.
  - (* a macro device: skipped *)
    injection Hrun as <-. rewrite Hprim.
    repeat split; auto; try apply Hfiles. by rewrite app_nil_r. discriminate.
Qed.

#[global] Instance same_circuits_frame : Frame same_circuits.
Proof. split; unfold same_circuits; [done | congruence]. Qed.

Lemma bind_device_same_circuits X path nd : preserves same_circuits (bind_device X path nd).
Proof. unfold bind_device, generate_cell, set_cell, add_path. frames. Qed.

Lemma bind_devices_loop X path w0 W work : forall w w',
  (forall nd, nd ∈ work -> nd ∈ W) ->
  bind_invariant w0 w ->
  for_each work (bind_device X path) w = (Ok tt, w') ->
  bind_invariant w0 w' /\
  trace w' = trace w ++ map (fun nd => Call_generate_cell nd.1 path)
                            (filter (fun nd => is_primitive w0 nd = true) work) /\
  (forall nd, nd ∈ work -> is_primitive w0 nd = true -> bound_to_lookup X path w0 W nd.2 w') /\
  (forall d, bound_to_lookup X path w0 W d w -> bound_to_lookup X path w0 W d w').
Proof.
  induction work as [| nd work IH]; intros w w' Hsub Hinv Hrun.
  - injection Hrun as <-. repeat split; try apply Hinv; auto.
    + by rewrite app_nil_r.
    + intros nd Hnd. by apply elem_of_nil in Hnd.
  - rewrite for_each_cons in Hrun. apply bind_Ok in Hrun as ([] & w1 & Hstep & Hrun).
    destruct (bind_device_step X path w0 W nd w w1 Hinv (Hsub nd (list_elem_of_here _ _)) Hstep)
      as (Hinv1 & Ht1 & Hb1 & Hkeep1).
    destruct (IH w1 w' (fun x Hx => Hsub x (list_elem_of_further _ _ _ Hx)) Hinv1 Hrun)
      as (Hinv' & Ht' & Hb' & Hkeep').
    split; [exact Hinv' |]. split; [| split].
    + rewrite Ht', Ht1, filter_cons.
      destruct (is_primitive w0 nd); case_decide; try done; simpl.
      * by rewrite <- app_assoc.
      * by rewrite app_nil_r.
    + intros x Hx Hprim. apply elem_of_cons in Hx as [-> | Hx]; eauto.
    + eauto.
Qed.

(** The outer loop visits the devices of the entries, entry by entry. *)
Lemma bind_layers_flat X path w0 l : forall w w',
  circuits w = circuits w0 ->
  for_each l (fun tc : Topology.entry =>
                let* c := deref circuits tc.2 in
                for_each (circ_devices c) (bind_device X path)) w = (Ok tt, w') ->
  for_each (flat_map (fun tc : Topology.entry => devices_of w0 tc.2) l)
           (bind_device X path) w = (Ok tt, w').
Proof.
  induction l as [| tc l IH]; intros w w' Hc Hrun; [exact Hrun |].
  rewrite for_each_cons in Hrun. apply bind_Ok in Hrun as ([] & w1 & H1 & Hrun).
  apply bind_Ok in H1 as (c & ? & Hd & H1). apply deref_Ok in Hd as [Hd ->].
  simpl. rewrite for_each_app.
  assert (Hdev : devices_of w0 tc.2 = circ_devices c).
  { unfold devices_of. by rewrite <- Hc, Hd. }
  rewrite Hdev, (bind_step _ _ _ _ _ H1).
  apply IH; [| exact Hrun].
  assert (Hp : preserves same_circuits (for_each (circ_devices c) (bind_device X path))).
  { apply preserves_for_each; [exact _ |]. intros nd. apply bind_device_same_circuits. }
  apply Hp in H1. unfold same_circuits in H1. congruence.
Qed.

Lemma bind_pass_flat X circ path w w' topology :
  get_top_down_topology X (circuits w) (devs w) circ = inr topology ->
  bind_pass X circ path w = (Ok tt, w') ->
  for_each (bind_work w topology) (bind_device X path) w = (Ok tt, w').
Proof.
  intros Htop Hrun. unfold bind_pass in Hrun.
  apply bind_Ok in Hrun as (? & ? & Hg & Hrun). apply get_inv in Hg as [[= ->] ->].
  rewrite Htop in Hrun.
  apply bind_Ok in Hrun as (? & ? & Hl & Hrun). injection Hl as <- <-.
  by apply (bind_layers_flat X path w) in Hrun.
Qed.

(** C8. When the bind pass of [add_cells] meets no failure, [add_cells]
    returns; the lookups it made are exactly those of the primitive devices
    of the circuits of the top-down topology, entry by entry in ascending
    layer order, one [generate_cell] per listing; every such device owns a
    cell that [generate_cell] returned for its name; devices of class
    [SubDevice] got no lookup and are unchanged; circuits, files and the
    cells that existed before are unchanged. *)
Theorem add_cells_binds_primitives X fuel circ mag path w w' topology :
  get_top_down_topology X (circuits w) (devs w) circ = inr topology ->
  bind_pass X circ path (with_trace (fun t => t ++ [Call_add_cells circ path]) w)
    = (Ok tt, w') ->
  let work := bind_work w topology in
  add_cells X (S fuel) circ mag path w = (Ok tt, w') /\
  StronglySorted layer_le (Topology.sort_asc topology) /\
  Permutation (Topology.sort_asc topology) topology /\
  trace w' = trace w ++ Call_add_cells circ path ::
               map (fun nd => Call_generate_cell nd.1 path)
                   (filter (fun nd => is_primitive w nd = true) work) /\
  (forall nd, nd ∈ work -> is_primitive w nd = true ->
              bound_to_lookup X path w work nd.2 w') /\
  (forall d dv, devs w !! d = Some dv -> dev_class dv = SubDevice -> devs w' !! d = Some dv) /\
  circuits w' = circuits w /\ fs w' = fs w /\
  (forall l c, cells w !! l = Some c -> cells w' !! l = Some c).
Proof.
  intros Htop Hpass work.
  set (w1 := with_trace (fun t => t ++ [Call_add_cells circ path]) w) in *.
  split.
  { simpl. rewrite (bind_step (emit _) _ w tt w1 eq_refl).
    unfold try_except. by rewrite Hpass. }
  split; [apply sort_asc_sorted |]. split; [apply sort_asc_perm |].
  apply (bind_pass_flat X circ path w1 w' topology Htop) in Hpass.
  change (bind_work w1 topology) with work in Hpass.
  destruct (bind_devices_loop X path w1 work work w1 w' (fun _ H => H)
              (bind_invariant_refl w1) Hpass)
    as ((Hc & (Hfs & _) & _ & Hmacro & Hold) & Ht & Hb & _).
  split; [| split; [| split; [| split; [| split]]]].
  - rewrite Ht. simpl. by rewrite <- app_assoc.
  - exact Hb.
  - exact Hmacro.
  - exact Hc.
  - exact Hfs.
  - exact Hold.
Qed.

Lemma add_cells_binds_primitives_witness :
  let w := Demo.world Demo.unbound_devs ∅ Demo.generated_fs in
  let w' := (add_cells Demo.X 1 Demo.top None "Magic/Devices" w).2 in
  add_cells Demo.X 1 Demo.top None "Magic/Devices" w = (Ok tt, w') /\
  trace w' = [Call_add_cells Demo.top "Magic/Devices";
              Call_generate_cell "M1" "Magic/Devices";
              Call_generate_cell "M2" "Magic/Devices"] /\
  bound_to_lookup Demo.X "Magic/Devices" w
    [("XA", Demo.devXA); ("XL", Demo.devXL); ("M1", Demo.devM1); ("M2", Demo.devM2)]
    Demo.devM1 w' /\
  devs w' !! Demo.devXA = Some (mkDevice "XA" SubDevice (Some Demo.circA) None).
Proof.
  intros w w'.
  assert (Htop : get_top_down_topology Demo.X (circuits w) (devs w) Demo.top
                 = inr [(0, Demo.top); (1, Demo.circA); (2, Demo.circL)])
    by (vm_compute; exact eq_refl).
  assert (Hpass : bind_pass Demo.X Demo.top "Magic/Devices"
                    (with_trace (fun t => t ++ [Call_add_cells Demo.top "Magic/Devices"]) w)
                  = (Ok tt, w')) by (vm_compute; exact eq_refl).
  destruct (add_cells_binds_primitives Demo.X 0 Demo.top None "Magic/Devices" w w' _ Htop Hpass)
    as (Hrun & _ & _ & Ht & Hb & Hmacro & _).
  split; [exact Hrun |]. split; [exact Ht |]. split.
  - apply (Hb ("M1", Demo.devM1)); [| reflexivity].
    apply list_elem_of_further, list_elem_of_further, list_elem_of_here.
  - by apply Hmacro.
Defined.

(** ** Counting rounds and heals *)

Lemma count_app f t1 t2 : count f (t1 ++ t2) = (count f t1 + count f t2)%nat.
Proof. unfold count. by rewrite filter_app, length_app. Qed.

Lemma count_none f t : Forall (fun e => f e = false) t -> count f t = 0%nat.
Proof.
  unfold count. induction 1 as [| e t He Ht IH]; [done |].
  rewrite filter_cons. case_decide; [congruence | done].
Qed.

#[global] Instance emits_only_frame Q : Frame (emits_only Q).
Proof.
  split.
  - intros w. exists []. by rewrite app_nil_r.
  - intros w1 w2 w3 (e1 & H1 & Q1) (e2 & H2 & Q2). exists (e1 ++ e2).
    split; [by rewrite H2, H1, app_assoc | by apply Forall_app].
Qed.

Lemma emits_only_silent Q w w' : trace w' = trace w -> emits_only Q w w'.
Proof. intros H. exists []. by rewrite app_nil_r. Qed.

Lemma emit_emits_only (Q : Event -> Prop) e : Q e -> preserves (emits_only Q) (emit e).
Proof. intros HQ w r w' [= <- <-]. exists [e]. split; [done | by constructor]. Qed.

Ltac quiet_leaf :=
  lazymatch goal with
  | |- preserves (emits_only _) (emit _) => apply emit_emits_only; by split
  | |- preserves (emits_only _) (print _) => apply emit_emits_only; by split
  | |- preserves _ (modify _) => apply preserves_modify; intros ?; by apply emits_only_silent
  | |- preserves _ (run_lines _ _) =>
      apply preserves_run_lines; intros; by apply emits_only_silent
  | |- preserves _ (new_Cell _ _ _) =>
      apply preserves_new_Cell; intros; by apply emits_only_silent
  end.

Ltac quiet_frames :=
  repeat (first [frame_step | quiet_leaf | progress eauto with frame nocore]).

Lemma instantiate_devices_quiet X c mag path del_path :
  preserves (emits_only quiet) (instantiate_devices X c mag path del_path).
Proof.
  unfold instantiate_devices, method, mag_command, magic_command, ensure_dir, makedirs,
    rmtree, add_path.
  quiet_frames.
Qed.

Lemma bind_pass_quiet X circ path : preserves (emits_only quiet) (bind_pass X circ path).
Proof.
  unfold bind_pass, generate_cell, set_cell, add_path. quiet_frames.
Qed.

Lemma instantiate_circuit_one_heal X circ mag path w r w' :
  instantiate_circuit X circ mag path w = (r, w') ->
  rounds w' = rounds w /\ heals w' = S (heals w).
Proof.
  unfold instantiate_circuit. rewrite (bind_step (emit _) _ w tt _ eq_refl).
  intros Hrun.
  assert (Hq : preserves (emits_only quiet)
           (let* w := get in
            let* topology := lift (get_top_down_topology X (circuits w) (devs w) circ) in
            let topology := Topology.sort_asc topology in
            ensure_dir path >> clear_through_tool mag path >>
            for_each topology (fun tc =>
              print "Diagnostic:  instantiating devices." >>
              instantiate_devices X tc.2 mag path false))).
  { unfold ensure_dir, makedirs, clear_through_tool, magic_command. quiet_frames.
    apply instantiate_devices_quiet. }
  apply Hq in Hrun as (evs & Ht & Hevs). unfold rounds, heals. rewrite Ht. simpl.
  rewrite !count_app.
  rewrite (count_none is_round evs), (count_none is_heal evs);
    [| eapply Forall_impl; [exact Hevs | by intros e []]
     | eapply Forall_impl; [exact Hevs | by intros e []]].
  change (count is_round [Call_instantiate_circuit circ path]) with 0%nat.
  change (count is_heal [Call_instantiate_circuit circ path]) with 1%nat.
  lia.
Qed.

Lemma quiet_counts w w' :
  emits_only quiet w w' -> rounds w' = rounds w /\ heals w' = heals w.
Proof.
  intros (evs & Ht & Hevs). unfold rounds, heals. rewrite Ht, !count_app.
  rewrite (count_none is_round evs), (count_none is_heal evs);
    [lia | eapply Forall_impl; [exact Hevs | by intros e []]
         | eapply Forall_impl; [exact Hevs | by intros e []]].
Qed.

(** ** Computations that only return or raise *)

Lemma raises_only_ret {A} (a : A) : raises_only (ret a).
Proof. by intros w. Qed.
Lemma raises_only_raise {A} e : raises_only (@raise A e).
Proof. by intros w. Qed.
Lemma raises_only_get : raises_only get.
Proof. by intros w. Qed.
Lemma raises_only_modify f : raises_only (modify f).
Proof. by intros w. Qed.
Lemma raises_only_lift {A} (x : exn + A) : raises_only (lift x).
Proof. by destruct x. Qed.
Lemma raises_only_deref {A} (sel : World -> gmap loc A) l : raises_only (deref sel l).
Proof. intros w. unfold deref. by destruct (sel w !! l). Qed.
Lemma raises_only_run_lines m ls : raises_only (run_lines m ls).
Proof. intros w. unfold run_lines. by destruct (execute m ls _ _). Qed.
Lemma raises_only_new_Cell ext name layers : raises_only (new_Cell ext name layers).
Proof. by intros w. Qed.

Lemma raises_only_bind {A B} (m : M A) (k : A -> M B) :
  raises_only m -> (forall a, raises_only (k a)) -> raises_only (bind m k).
Proof.
  intros Hm Hk w. unfold bind. specialize (Hm w).
  destruct (m w) as [[a | e | z |] w1]; simpl in *; try done. apply Hk.
Qed.

Lemma raises_only_for_each {A} (l : list A) (body : A -> M unit) :
  (forall x, raises_only (body x)) -> raises_only (for_each l body).
Proof.
  intros Hb. induction l as [| x l IH]; simpl; [apply raises_only_ret |].
  apply raises_only_bind; auto.
Qed.

Ltac plain_step :=
  lazymatch goal with
  | |- raises_only (bind _ _) => apply raises_only_bind; [| intros ?]
  | |- raises_only (ret _) => apply raises_only_ret
  | |- raises_only (raise _) => apply raises_only_raise
  | |- raises_only get => apply raises_only_get
  | |- raises_only (modify _) => apply raises_only_modify
  | |- raises_only (emit _) => apply raises_only_modify
  | |- raises_only (print _) => apply raises_only_modify
  | |- raises_only (lift _) => apply raises_only_lift
  | |- raises_only (deref _ _) => apply raises_only_deref
  | |- raises_only (run_lines _ _) => apply raises_only_run_lines
  | |- raises_only (new_Cell _ _ _) => apply raises_only_new_Cell
  | |- raises_only (for_each _ _) => apply raises_only_for_each; intros ?
  | |- raises_only (match ?x with _ => _ end) => destruct x
  | |- raises_only (let _ := _ in _) => cbv zeta
  end.

Lemma instantiate_circuit_raises_only X circ mag path :
  raises_only (instantiate_circuit X circ mag path).
Proof.
  unfold instantiate_circuit, instantiate_devices, clear_through_tool, ensure_dir,
    makedirs, rmtree, method, mag_command, magic_command, add_path.
  repeat plain_step.
Qed.

(** ** [add_cells]: healing *)

Lemma add_cells_S X fuel circ mag path w :
  add_cells X (S fuel) circ mag path w =
    try_except (bind_pass X circ path)
      (heal_and_retry X fuel circ mag path)
      (let* w := get in
       print ("Adding cells to " +:+ circuit_str X (circuits w) circ +:+ " failed!") >>
       sys_exit 1)
      (entered circ path w).
Proof. reflexivity. Qed.

Lemma entered_counts circ path w :
  rounds (entered circ path w) = S (rounds w) /\ heals (entered circ path w) = heals w.
Proof.
  unfold rounds, heals, entered. simpl. rewrite !count_app.
  change (count is_round [Call_add_cells circ path]) with 1%nat.
  change (count is_heal [Call_add_cells circ path]) with 0%nat. lia.
Qed.

Lemma print_counts s w :
  rounds (with_trace (fun t => t ++ [Printed s]) w) = rounds w /\
  heals (with_trace (fun t => t ++ [Printed s]) w) = heals w.
Proof.
  unfold rounds, heals. simpl. rewrite !count_app.
  change (count is_round [Printed s]) with 0%nat.
  change (count is_heal [Printed s]) with 0%nat. lia.
Qed.

Lemma add_cells_run X circ mag path : forall fuel w r w',
  add_cells X fuel circ mag path w = (r, w') ->
  r <> OutOfFuel ->
  exists R H,
    rounds w' = (rounds w + R)%nat /\ heals w' = (heals w + H)%nat /\
    add_cells_ending X circ mag path r w' R H.
Proof.
  induction fuel as [| fuel IH]; intros w r w' Hrun Hfuel.
  { injection Hrun as <- <-. done. }
  rewrite add_cells_S in Hrun. unfold try_except in Hrun.
  destruct (entered_counts circ path w) as [HR1 HH1].
  destruct (bind_pass X circ path (entered circ path w)) as [rb wb] eqn:Hpass.
  destruct (quiet_counts _ _ (bind_pass_quiet X circ path _ _ _ Hpass)) as [HRb HHb].
  assert (Hfatal :
    (let* w := get in
     print ("Adding cells to " +:+ circuit_str X (circuits w) circ +:+ " failed!") >>
     sys_exit 1) wb = (r, w') ->
    exists R H, rounds w' = (rounds w + R)%nat /\ heals w' = (heals w + H)%nat /\
                add_cells_ending X circ mag path r w' R H).
  { intros [= <- <-]. destruct (print_counts
      ("Adding cells to " +:+ circuit_str X (circuits wb) circ +:+ " failed!") wb) as [HRp HHp].
    exists 1%nat, 0%nat. split; [lia |]. split; [lia |].
    right; left. split; [done |]. split; [done |]. by exists wb. }
  destruct rb as [[] | e | z |].
  - injection Hrun as <- <-. exists 1%nat, 0%nat.
    split; [lia |]. split; [lia |]. left. split; [done |]. split; [done |]. by exists w.
  - destruct (is_FileNotFoundError e); [| by apply Hfatal].
    unfold heal_and_retry in Hrun.
    rewrite (bind_step (print _) _ wb tt _ eq_refl) in Hrun.
    rewrite (bind_step (print _) _ _ tt _ eq_refl) in Hrun.
    set (w2 := with_trace _ (with_trace _ wb)) in Hrun.
    assert (HR2 : rounds w2 = rounds wb /\ heals w2 = heals wb).
    { subst w2. destruct (print_counts "Magic-view can't be found!" wb) as [<- <-].
      apply print_counts. }
    destruct HR2 as [HR2 HH2].
    unfold bind in Hrun.
    destruct (instantiate_circuit X circ mag path w2) as [ri w3] eqn:Hheal.
    destruct (instantiate_circuit_one_heal _ _ _ _ _ _ _ Hheal) as [HR3 HH3].
    pose proof (instantiate_circuit_raises_only X circ mag path w2) as Hplain.
    rewrite Hheal in Hplain. simpl in Hplain.
    destruct ri as [[] | e' | |]; try done.
    + destruct (IH _ _ _ Hrun Hfuel) as (R & H & HR & HH & Hend).
      exists (S R), (S H). split; [lia |]. split; [lia |].
      destruct Hend as [(-> & -> & Hl) | [(-> & -> & Hl) | (e1 & -> & -> & Hge & Hl)]].
      * left. by repeat split.
      * right; left. by repeat split.
      * right; right. exists e1. repeat split; auto; lia.
    + injection Hrun as <- <-. exists 1%nat, 1%nat. split; [lia |]. split; [lia |].
      right; right. exists e'. repeat split; auto. by exists w2.
  - by apply Hfatal.
  - by injection Hrun as <- _.
Qed.

(** C1, as the code has it.  Every lookup round of [add_cells] that fails
    with [FileNotFoundError] is followed by one invocation of the Hierarchy
    Instantiator and then by one more call of [add_cells], which runs the
    bind pass again; the handler carries no counter, so this repeats for as
    long as rounds keep failing in this way.  A run that ends has made one
    lookup round more than it has made heals, or as many rounds as heals
    when it ends with an exception raised by a heal. *)
Theorem add_cells_heals_every_miss X fuel circ mag path w r w' :
  add_cells X fuel circ mag path w = (r, w') ->
  r <> OutOfFuel ->
  (exists R H,
     rounds w' = (rounds w + R)%nat /\ heals w' = (heals w + H)%nat /\
     (1 <= R)%nat /\ (R = S H \/ R = H) /\ (r = Ok tt -> R = S H)) /\
  (forall fuel' w0 msg w1,
     bind_pass X circ path (entered circ path w0) = (Raise (FileNotFoundError msg), w1) ->
     add_cells X (S fuel') circ mag path w0 =
       (print "Magic-view can't be found!" >>
        print ("Generating new view under '" +:+ path +:+ "'!") >>
        instantiate_circuit X circ mag path >>
        add_cells X fuel' circ mag path) w1).
Proof.
  intros Hrun Hfuel. split.
  - destruct (add_cells_run X circ mag path fuel w r w' Hrun Hfuel)
      as (R & H & HR & HH & Hend).
    exists R, H. split; [exact HR |]. split; [exact HH |].
    destruct Hend as [(-> & -> & _) | [(-> & -> & _) | (e & -> & -> & Hge & _)]].
    + repeat split; auto; lia.
    + repeat split; auto; lia.
    + repeat split; auto. discriminate.
  - intros fuel' w0 msg w1 Hpass. rewrite add_cells_S. unfold try_except.
    by rewrite Hpass.
Qed.

Lemma add_cells_heals_every_miss_witness :
  let w := Demo.world Demo.unbound_devs ∅ Demo.empty_fs in
  let w' := (add_cells Demo.X 3 Demo.top (Some Demo.working_tool) "Magic/Devices" w).2 in
  add_cells Demo.X 3 Demo.top (Some Demo.working_tool) "Magic/Devices" w = (Ok tt, w') /\
  rounds w' = 2%nat /\ heals w' = 1%nat /\
  exists R H, rounds w' = (rounds w + R)%nat /\ heals w' = (heals w + H)%nat /\
              (1 <= R)%nat /\ (R = S H \/ R = H) /\ (Ok tt = Ok tt -> R = S H).
Proof.
  intros w w'.
  assert (Hrun : add_cells Demo.X 3 Demo.top (Some Demo.working_tool) "Magic/Devices" w
                 = (Ok tt, w')) by (vm_compute; exact eq_refl).
  split; [exact Hrun |]. split; [by vm_compute |]. split; [by vm_compute |].
  apply (add_cells_heals_every_miss Demo.X 3 Demo.top (Some Demo.working_tool)
           "Magic/Devices" w (Ok tt) w' Hrun). discriminate.
Defined.

(** With a tool whose views only reach the disk during the second heal,
    the second [FileNotFoundError] is healed like the first and the third
    lookup round succeeds. *)
Lemma add_cells_third_round :
  let w := Demo.world Demo.unbound_devs ∅ Demo.empty_fs in
  let r := add_cells Demo.X 5 Demo.top (Some Demo.slow_tool) "Magic/Devices" w in
  r.1 = Ok tt /\ rounds r.2 = 3%nat /\ heals r.2 = 2%nat /\
  ~ healed_at_most_once Demo.X 5 Demo.top (Some Demo.slow_tool) "Magic/Devices" w.
Proof.
  intros w r.
  assert (HR : rounds r.2 = 3%nat) by (by vm_compute).
  assert (HH : heals r.2 = 2%nat) by (by vm_compute).
  split; [by vm_compute |]. split; [exact HR |]. split; [exact HH |].
  unfold healed_at_most_once. fold r. rewrite HR, HH.
  change (rounds w) with 0%nat. change (heals w) with 0%nat. lia.
Qed.

(** With a tool that never writes a view the recursion goes on for as long
    as the budget lasts: four rounds and four heals with a budget of four. *)
Lemma add_cells_keeps_healing :
  let w := Demo.world Demo.unbound_devs ∅ Demo.empty_fs in
  let r := add_cells Demo.X 4 Demo.top (Some Demo.silent_tool) "Magic/Devices" w in
  r.1 = OutOfFuel /\ rounds r.2 = 4%nat /\ heals r.2 = 4%nat.
Proof. intros w r. repeat split; by vm_compute. Qed.

(** ** Failures of cell binding end the workflow *)

(** C9. A run of [add_cells] either returns, and then its last bind pass
    went through the whole hierarchy without a failure, or it ends the
    process with status 1.  A failure of the bind pass that is not a
    [FileNotFoundError] is reported by [add_cells] itself, which then calls
    [sys.exit(1)]; a failure of a heal propagates as an exception. *)
Theorem add_cells_failure_is_fatal X fuel circ mag path w r w' :
  add_cells X fuel circ mag path w = (r, w') ->
  r <> OutOfFuel ->
  ((r = Ok tt /\ exists wl, bind_pass X circ path (entered circ path wl) = (Ok tt, w')) \/
   (r = Exit 1 /\ exit_status r = Some 1 /\
    exists wl, trace w' = trace wl ++ [failure_report X circ wl]) \/
   (exists e, r = Raise e /\ exit_status r = Some 1 /\
    exists wi, instantiate_circuit X circ mag path wi = (Raise e, w'))) /\
  (forall fuel' w0 rb w1,
     bind_pass X circ path (entered circ path w0) = (rb, w1) ->
     (exists e, rb = Raise e /\ is_FileNotFoundError e = false) \/ (exists z, rb = Exit z) ->
     add_cells X (S fuel') circ mag path w0 =
       (Exit 1, with_trace (fun t => t ++ [failure_report X circ w1]) w1)).
Proof.
  intros Hrun Hfuel. split.
  - destruct (add_cells_run X circ mag path fuel w r w' Hrun Hfuel)
      as (R & H & _ & _ & Hend).
    destruct Hend as [(-> & _ & Hl) | [(-> & _ & Hl) | (e & -> & _ & _ & Hl)]].
    + by left.
    + right; left. by repeat split.
    + right; right. exists e. by repeat split.
  - intros fuel' w0 rb w1 Hpass Hrb. rewrite add_cells_S. unfold try_except.
    rewrite Hpass. destruct Hrb as [(e & -> & ->) | (z & ->)]; reflexivity.
Qed.

Lemma add_cells_failure_is_fatal_witness :
  let unparsable : FS := {[ Demo.devices_dir := {[ "M1.mag" := ""; "M2.mag" := "li1" ]} ]} in
  let w := Demo.world Demo.unbound_devs ∅ unparsable in
  let w' := (add_cells Demo.X 2 Demo.top (Some Demo.working_tool) "Magic/Devices" w).2 in
  add_cells Demo.X 2 Demo.top (Some Demo.working_tool) "Magic/Devices" w = (Exit 1, w') /\
  last (trace w') = Some (Printed "Adding cells to top failed!") /\
  exit_status (Exit 1) = Some 1.
Proof.
  intros unparsable w w'.
  assert (Hrun : add_cells Demo.X 2 Demo.top (Some Demo.working_tool) "Magic/Devices" w
                 = (Exit 1, w')) by (vm_compute; exact eq_refl).
  destruct (add_cells_failure_is_fatal Demo.X 2 Demo.top (Some Demo.working_tool)
              "Magic/Devices" w (Exit 1) w' Hrun) as [Hend _]; [discriminate |].
  destruct Hend as [[[=] _] | [(_ & Hstatus & wl & Ht) | (e & [=] & _)]].
  split; [exact Hrun |]. split; [| exact Hstatus].
  rewrite Ht, last_snoc.
  assert (Hlast : last (trace w') = Some (Printed "Adding cells to top failed!"))
    by (by vm_compute).
  by rewrite Ht, last_snoc in Hlast.
Defined.

(** ** The snapshot of a composite *)

#[global] Instance same_trace_frame : Frame same_trace.
Proof. split; unfold same_trace; [done | congruence]. Qed.

Lemma add_path_Ok cl p w w' :
  add_path cl p w = (Ok tt, w') ->
  exists c, cells w !! cl = Some c /\
            w' = with_cells (fun m => <[cl := set_path p c]> m) w.
Proof.
  unfold add_path. intros Hrun.
  apply bind_Ok in Hrun as (c & ? & Hc & Hrun). apply deref_Ok in Hc as [Hc ->].
  injection Hrun as <-. eauto.
Qed.

Lemma move_center_Ok cl p w w' :
  move_center cl p w = (Ok tt, w') ->
  exists c, cells w !! cl = Some c /\
            w' = with_cells (fun m => <[cl := set_center p c]> m)
                   (with_trace (fun t => t ++ [Call_move_center cl p]) w).
Proof.
  unfold move_center. rewrite (bind_step (emit _) _ w tt _ eq_refl). intros Hrun.
  apply bind_Ok in Hrun as (c & ? & Hc & Hrun). apply deref_Ok in Hc as [Hc ->].
  injection Hrun as <-. eauto.
Qed.

Lemma rotate_center_Ok cl a w w' :
  rotate_center cl a w = (Ok tt, w') ->
  exists c size', cells w !! cl = Some c /\
            w' = with_cells (fun m => <[cl := set_rotation (cell_rotation c + a) size' c]> m)
                   (with_trace (fun t => t ++ [Call_rotate_center cl a]) w).
Proof.
  unfold rotate_center. rewrite (bind_step (emit _) _ w tt _ eq_refl). intros Hrun.
  apply bind_Ok in Hrun as (c & ? & Hc & Hrun). apply deref_Ok in Hc as [Hc ->].
  injection Hrun as <-. eauto.
Qed.

Lemma shift_cell_same_trace d cl : preserves same_trace (shift_cell d cl).
Proof. unfold shift_cell. frames. Qed.

Lemma move_cells_to_bound_trace cl w r w' :
  move_cells_to_bound cl w = (r, w') ->
  trace w' = trace w ++ [Call_move_cells_to_bound cl].
Proof.
  unfold move_cells_to_bound. rewrite (bind_step (emit _) _ w tt _ eq_refl).
  intros Hrun.
  assert (Hp : preserves same_trace
           (let* c := deref cells cl in
            let* kids := deref_all (cell_children c) in
            match joint_lower_left kids with
            | Some b => for_each (cell_children c) (shift_cell (- b.1, - b.2))
            | None => ret ()
            end)).
  { frames. apply shift_cell_same_trace. }
  apply Hp in Hrun. by rewrite Hrun.
Qed.

Lemma place_circuit_emits name c mag path debug clean_path :
  preserves (emits_only any_event) (place_circuit name c mag path debug clean_path).
Proof.
  unfold place_circuit, method, ensure_dir, makedirs, clear_through_tool, mag_command,
    magic_command.
  quiet_frames.
Qed.

(** C3. For a composite entry whose macro device owns a cell, a run of the
    loop body that returns has called [move_center((0,0))],
    [rotate_center(-rotation)], with the rotation that the macro cell of the
    deep copy has, and [_move_cells_to_bound()], in this order, on that
    macro cell, which is a new object; every
    circuit and device of the store is as it was, every cell of the store is
    as it was except the macro cell of the original composite, and of that
    cell only the path has changed: it is [realpath path]. *)
Theorem place_entry_normalizes_snapshot X name mag path tc w w' c d dv cl cell :
  circuits w !! tc.2 = Some c -> circ_sub_device c = Some d ->
  devs w !! d = Some dv -> dev_cell dv = Some cl -> cells w !! cl = Some cell ->
  snapshot_fresh w (deepcopy X w tc.2).1 (deepcopy X w tc.2).2 ->
  place_entry X name mag path tc w = (Ok tt, w') ->
  (exists m rot rest,
     (m ∉ dom (cells w)) /\
     cell_rotation <$> cells (deepcopy X w tc.2).1 !! m = Some rot /\
     trace w' = trace w ++ [Call_move_center m (0, 0); Call_rotate_center m (- rot);
                            Call_move_cells_to_bound m] ++ rest) /\
  (circuits w ⊆ circuits w') /\ (devs w ⊆ devs w') /\
  cells w' !! cl = Some (set_path (realpath X path) cell) /\
  (forall l, l <> cl -> l ∈ dom (cells w) -> cells w' !! l = cells w !! l).
Proof.
  intros Hc Hd Hdv Hcl Hcell Hsnap Hrun.
  destruct (place_entry_composite X name mag path tc w w' c d Hc Hd Hrun) as [R].
  destruct R as [ws circ_c sd m w1 w2 w3 w4 rot sname cl' Hcopy Hsd Hm Hmove Hrot
                 Hrotate Hbound Hname Hplace Horig Hrebind].
  rewrite Hcopy in Hsnap. simpl in Hsnap.
  destruct Hsnap as (Hsc & Hsdv & Hscl & Hsf & Hst & Hfresh_c & Hfresh).
  destruct (circuits ws !! circ_c) as [cc |] eqn:Hcc; [| discriminate].
  injection Hsd as Hsd.
  destruct (devs ws !! sd) as [sdv |] eqn:Hsdv'; [| discriminate].
  injection Hm as Hm.
  destruct (Hfresh cc sd sdv m eq_refl Hsd Hsdv' Hm) as (Hfresh_d & Hfresh_m & Hfresh_k).
  (* the three steps on the snapshot *)
  apply move_center_Ok in Hmove as (mc & Hmc & ->).
  apply rotate_center_Ok in Hrotate as (mc1 & size' & Hmc1 & ->).
  simpl in Hmc1. rewrite lookup_insert_eq in Hmc1. injection Hmc1 as <-.
  simpl in Hrot. rewrite lookup_insert_eq in Hrot. injection Hrot as <-.
  set (w2 := with_cells _ (with_trace _ (with_cells _ (with_trace _ ws)))) in *.
  pose proof (move_cells_to_bound_trace _ _ _ _ Hbound) as Ht3.
  pose proof (move_cells_to_bound_same_devices _ _ _ _ Hbound) as (Hc3 & Hd3).
  assert (Hout3 : cells_outside (fun l => l ∉ dom (cells w)) w2 w3).
  { eapply move_cells_to_bound_outside; [| exact Hbound].
    intros c0 k Hc0 Hk. subst w2. simpl in Hc0. rewrite lookup_insert_eq in Hc0.
    injection Hc0 as <-. by apply (Hfresh_k mc k). }
  (* the placement *)
  pose proof (place_circuit_same_store _ _ _ _ _ _ _ _ _ Hplace) as (Hc4 & Hd4 & Hl4).
  destruct (place_circuit_emits _ _ _ _ _ _ _ _ _ Hplace) as (rest & Ht4 & _).
  (* the original composite *)
  destruct Horig as (c' & d' & dv' & Hc' & Hd' & Hdv' & Hcl').
  assert (Hcirc4 : circuits w4 = circuits ws) by (rewrite Hc4, Hc3; by subst w2).
  assert (Hdevs4 : devs w4 = devs ws) by (rewrite Hd4, Hd3; by subst w2).
  rewrite Hcirc4, (lookup_weaken _ _ _ _ Hc Hsc) in Hc'. injection Hc' as <-.
  rewrite Hd in Hd'. injection Hd' as <-.
  rewrite Hdevs4, (lookup_weaken _ _ _ _ Hdv Hsdv) in Hdv'. injection Hdv' as <-.
  rewrite Hcl in Hcl'. injection Hcl' as <-.
  assert (Hkeep : forall l, l ∈ dom (cells w) -> cells w4 !! l = cells w !! l).
  { intros l Hl. rewrite Hl4, (Hout3 l) by (intros Hn; by apply Hn).
    subst w2. simpl. rewrite lookup_insert_ne by (intros ->; done).
    rewrite lookup_insert_ne by (intros ->; done).
    apply elem_of_dom in Hl as [x Hx]. by rewrite Hx, (lookup_weaken _ _ _ _ Hx Hscl). }
  apply add_path_Ok in Hrebind as (cell' & Hcell' & ->).
  rewrite (Hkeep cl) in Hcell' by (apply elem_of_dom; eauto).
  rewrite Hcell in Hcell'. injection Hcell' as <-.
  split; [| split; [| split; [| split]]].
  - exists m, (cell_rotation mc), rest. split; [exact Hfresh_m |].
    split; [by rewrite Hcopy; simpl; rewrite Hmc |].
    simpl. rewrite Ht4, Ht3. subst w2. simpl. rewrite Hst.
    by rewrite <- !app_assoc.
  - simpl. by rewrite Hcirc4.
  - simpl. by rewrite Hdevs4.
  - simpl. by rewrite lookup_insert_eq.
  - intros l Hne Hl. simpl. rewrite lookup_insert_ne by done. by apply Hkeep.
Qed.

Lemma demo_deepcopy_extends w c :
  (circuits w ⊆ circuits (Demo.deepcopy w c).1) /\
  (devs w ⊆ devs (Demo.deepcopy w c).1) /\
  (cells w ⊆ cells (Demo.deepcopy w c).1).
Proof. unfold Demo.deepcopy, Demo.twins. simpl. repeat split; apply map_union_subseteq_l. Qed.

Lemma place_entry_normalizes_snapshot_witness :
  let w := Demo.world Demo.placed_devs Demo.placed_cells Demo.generated_fs in
  let w' := (place_entry Demo.X "top" (Some Demo.working_tool) "Magic/Placement"
               (1, Demo.circA) w).2 in
  cells w' !! Demo.cellXA =
    Some (mkCell ClsMacroCell "XA" [] (Some "/work/Magic/Placement") (40, 10) 90 (6, 10)
                 [Demo.cellXL]) /\
  (forall l, l <> Demo.cellXA -> l ∈ dom (cells w) -> cells w' !! l = cells w !! l) /\
  (devs w ⊆ devs w').
Proof.
  intros w w'.
  assert (Hrun : place_entry Demo.X "top" (Some Demo.working_tool) "Magic/Placement"
                   (1, Demo.circA) w = (Ok tt, w')) by (vm_compute; exact eq_refl).
  assert (Hsnap : snapshot_fresh w (deepcopy Demo.X w Demo.circA).1
                                   (deepcopy Demo.X w Demo.circA).2).
  { destruct (demo_deepcopy_extends w Demo.circA) as (Hc & Hd & Hl).
    split; [exact Hc |]. split; [exact Hd |]. split; [exact Hl |].
    split; [by repeat split |]. split; [reflexivity |]. split; [compute_done |].
    intros cc d dv m Hcc Hsd Hdv Hm.
    vm_compute in Hcc. injection Hcc as <-. injection Hsd as <-.
    vm_compute in Hdv. injection Hdv as <-. injection Hm as <-.
    split; [compute_done |]. split; [compute_done |].
    intros mc k Hmc Hk. vm_compute in Hmc. injection Hmc as <-.
    apply list_elem_of_singleton in Hk as ->. compute_done. }
  destruct (place_entry_normalizes_snapshot Demo.X "top" (Some Demo.working_tool)
              "Magic/Placement" (1, Demo.circA) w w'
              (mkCircuit "A" [("XL", Demo.devXL)] (Some Demo.devXA)) Demo.devXA
              (mkDevice "XA" SubDevice (Some Demo.circA) (Some Demo.cellXA)) Demo.cellXA
              (mkCell ClsMacroCell "XA" [] (Some "old/Placement") (40, 10) 90 (6, 10)
                      [Demo.cellXL])
              eq_refl eq_refl eq_refl eq_refl eq_refl Hsnap Hrun)
    as (_ & _ & Hdevs & Hcell & Hothers).
  by repeat split.
Defined.

(** ** Normalising a block that is already normalised *)

Lemma with_cells_id l c w :
  cells w !! l = Some c -> with_cells (fun m => <[l := c]> m) w = w.
Proof. destruct w. unfold with_cells. simpl. intros H. by rewrite insert_id. Qed.

Lemma deref_all_Ok ls w kids w' :
  deref_all ls w = (Ok kids, w') ->
  w' = w /\ Forall2 (fun l c => cells w !! l = Some c) ls kids.
Proof.
  revert kids w'. induction ls as [| l ls IH]; intros kids w'; simpl.
  - intros [= <- <-]. by split.
  - intros Hrun. apply bind_Ok in Hrun as (c & ? & Hc & Hrun).
    apply deref_Ok in Hc as [Hc ->].
    apply bind_Ok in Hrun as (cs & ? & Hcs & Hrun). apply IH in Hcs as [-> Hcs].
    injection Hrun as <- <-. split; [done | by constructor].
Qed.

Lemma deref_all_same_cells ls w kids w1 :
  cells w1 = cells w ->
  Forall2 (fun l c => cells w !! l = Some c) ls kids ->
  deref_all ls w1 = (Ok kids, w1).
Proof.
  intros Hcells. induction 1 as [| l c ls kids Hl Hrest IH]; simpl; [done |].
  unfold bind, deref. by rewrite Hcells, Hl, IH.
Qed.

Lemma shift_by_nothing ls w kids :
  Forall2 (fun l c => cells w !! l = Some c) ls kids ->
  for_each ls (shift_cell (0, 0)) w = (Ok tt, w).
Proof.
  induction 1 as [| l c ls kids Hl Hrest IH]; simpl; [done |].
  assert (Hstep : shift_cell (0, 0) l w = (Ok tt, w)).
  { unfold shift_cell, bind, deref, modify. rewrite Hl. f_equal.
    apply with_cells_id. rewrite Hl. f_equal. destruct c as [? ? ? ? [x y] ? ? ?].
    unfold set_center. simpl. by rewrite !Z.add_0_r. }
  by rewrite (bind_step _ _ _ _ _ Hstep).
Qed.

(** In a run of the composite branch the three calls are made on the macro
    cell of the snapshot, in the world that holds the snapshot. *)
Lemma composite_run_normalizes X mag path circ w w' (R : CompositeRun X mag path circ w w') :
  normalize_macro_cell (cr_macro_cell _ _ _ _ _ _ R) (cr_snapshot _ _ _ _ _ _ R)
    = (Ok tt, cr_bounded _ _ _ _ _ _ R).
Proof.
  destruct R as [ws circ_c sd m w1 w2 w3 w4 rot sname cl' Hcopy Hsd Hm Hmove Hrot
                 Hrotate Hbound Hname Hplace Horig Hrebind]. simpl.
  unfold normalize_macro_cell.
  rewrite (bind_step _ _ _ _ _ Hmove).
  destruct (cells w1 !! m) as [mc |] eqn:Hmc; [| discriminate]. injection Hrot as <-.
  assert (Hd : deref cells m w1 = (Ok mc, w1)) by (unfold deref; by rewrite Hmc).
  assert (H2 : (let* mc := deref cells m in rotate_center m (- cell_rotation mc)) w1
               = (Ok tt, w2)) by (by rewrite (bind_step _ _ _ _ _ Hd)).
  by rewrite (bind_step _ _ _ _ _ H2).
Qed.

(** C10. On a macro cell that is already normalised, the three calls
    change no object: the world after them is the world before them, with
    the three calls recorded in the trace. *)
Theorem normalize_already_normalized macro_cell w :
  normalized w macro_cell ->
  normalize_macro_cell macro_cell w =
    (Ok tt, with_trace (fun t => t ++ [Call_move_center macro_cell (0, 0);
                                       Call_rotate_center macro_cell 0;
                                       Call_move_cells_to_bound macro_cell]) w).
Proof.
  intros (mc & kids & Hmc & Hcenter & Hrot & Hkids & Hbound).
  apply deref_all_Ok in Hkids as [_ Hkids].
  destruct mc as [cls nm layers pth center rot size children]. simpl in *. subst center rot.
  set (mc := mkCell cls nm layers pth (0, 0) 0 size children) in *.
  unfold normalize_macro_cell.
  (* translate so that the center is at the origin *)
  assert (H1 : move_center macro_cell (0, 0) w =
               (Ok tt, with_trace (fun t => t ++ [Call_move_center macro_cell (0, 0)]) w)).
  { unfold move_center. rewrite (bind_step (emit _) _ w tt _ eq_refl).
    unfold bind, deref, modify. simpl. rewrite Hmc. f_equal.
    by apply with_cells_id. }
  rewrite (bind_step _ _ _ _ _ H1).
  (* rotate by the negative of the rotation *)
  set (w1 := with_trace _ w).
  assert (H2 : (let* c := deref cells macro_cell in
                rotate_center macro_cell (- cell_rotation c)) w1 =
               (Ok tt, with_trace (fun t => t ++ [Call_rotate_center macro_cell 0]) w1)).
  { unfold bind at 1. unfold deref at 1. simpl. rewrite Hmc. simpl.
    unfold rotate_center. rewrite (bind_step (emit _) _ w1 tt _ eq_refl).
    unfold bind, deref, modify. simpl. rewrite Hmc. f_equal.
    by apply with_cells_id. }
  rewrite (bind_step _ _ _ _ _ H2).
  (* align the children *)
  set (w2 := with_trace _ w1).
  unfold move_cells_to_bound. rewrite (bind_step (emit _) _ w2 tt _ eq_refl).
  set (w3 := with_trace _ w2).
  assert (Hd : deref cells macro_cell w3 = (Ok mc, w3))
    by (unfold deref; simpl; by rewrite Hmc).
  rewrite (bind_step _ _ _ _ _ Hd).
  rewrite (bind_step _ _ _ _ _ (deref_all_same_cells children w kids w3 eq_refl Hkids)).
  assert (Hw3 : w3 = with_trace (fun t => t ++ [Call_move_center macro_cell (0, 0);
                                                Call_rotate_center macro_cell 0;
                                                Call_move_cells_to_bound macro_cell]) w).
  { subst w3 w2 w1. unfold with_trace. simpl. by rewrite <- !app_assoc. }
  destruct Hbound as [-> | ->].
  - by rewrite <- Hw3.
  - rewrite <- Hw3.
    change (for_each children (shift_cell (0, 0)) w3 = (Ok tt, w3)).
    by apply (shift_by_nothing children w3 kids).
Qed.

Lemma normalize_already_normalized_witness :
  let w0 := Demo.world Demo.placed_devs Demo.placed_cells Demo.generated_fs in
  let w := (normalize_macro_cell Demo.cellXL w0).2 in
  cells w !! Demo.cellXL =
    Some (mkCell ClsMacroCell "XL" [] (Some "old/Placement") (0, 0) 0 (10, 4)
                 [Demo.cellM1; Demo.cellM2]) /\
  normalized w Demo.cellXL /\
  store_of (normalize_macro_cell Demo.cellXL w).2 = store_of w.
Proof.
  intros w0 w.
  assert (Hcell : cells w !! Demo.cellXL =
            Some (mkCell ClsMacroCell "XL" [] (Some "old/Placement") (0, 0) 0 (10, 4)
                         [Demo.cellM1; Demo.cellM2])) by (by vm_compute).
  assert (Hn : normalized w Demo.cellXL).
  { exists (mkCell ClsMacroCell "XL" [] (Some "old/Placement") (0, 0) 0 (10, 4)
                   [Demo.cellM1; Demo.cellM2]),
           [mkCell ClsCell "M1" ["li1"] (Some "old/Devices") (2, 2) 0 (4, 4) [];
            mkCell ClsCell "M2" ["li1"] (Some "old/Devices") (6, 7) 0 (4, 6) []].
    split; [exact Hcell |]. split; [reflexivity |]. split; [reflexivity |].
    split; [vm_compute; exact eq_refl | right; reflexivity]. }
  split; [exact Hcell |]. split; [exact Hn |].
  by rewrite (normalize_already_normalized Demo.cellXL w Hn).
Defined.

(** ** The order of placement *)

(** In the order in which [place_circuit_hierachical] consumes it, an entry
    never comes after an entry of a higher layer. *)
Lemma sort_desc_higher_first topology pre a post :
  Topology.sort_desc topology = pre ++ a :: post ->
  Forall (fun b => (b.1 <= a.1)%Z) post.
Proof.
  intros Hsplit. pose proof (sort_desc_sorted topology) as Hs. rewrite Hsplit in Hs.
  clear Hsplit. induction pre as [| x pre IH]; simpl in Hs; inversion Hs; subst; auto.
Qed.

